(** * The outline editor's client: tree reordering, request guards and
      the HTTP helpers

    Shallow embedding of [frontend/src/types.ts] (the [App] component's
    tree functions and handlers), [frontend/src/api.ts] and the rename
    guard of [frontend/src/components/SectionRow.tsx].

    Conventions.
    - A JavaScript string is the list of its UTF-16 code units.
    - A JavaScript number that holds an index or an [order] is a [Z];
      [findIndex] returns [-1] as in the source.  A number inside a
      response body is kept as the text [Number::toString] gives it,
      which is all the code does with it.
    - An array is a [list]; [splice] is written out with the clamping of
      ECMAScript.
    - [async] functions run to completion one after the other: a
      handler is a state transformer over the component state and the
      log of what it did to the outside world. *)

From Stdlib Require Import ZArith String Ascii.
From stdpp Require Import base decidable option numbers list gmap strings.

Local Open Scope Z_scope.

(** ** Strings *)

Definition jsstring := list N.

(** An ASCII literal as a JavaScript string. *)
Definition js (s : string) : jsstring :=
  N_of_ascii <$> list_ascii_of_string s.
Arguments js : simpl never.

(** ** [types.ts]: the data model *)

#[local] Set Warnings "-register-all".

Inductive SectionNode := mkNode {
  id : jsstring;
  parent_id : option jsstring;
  section_key : jsstring;
  name : jsstring;
  is_leaf : bool;
  order : Z;
  children : list SectionNode
}.

Inductive DropPosition := before | after.

Global Instance DropPosition_eq_dec : EqDecision DropPosition.
Proof. solve_decision. Defined.

(** [{ ...n, order: o }] and [{ ...n, children: c }]. *)
Definition with_order (n : SectionNode) (o : Z) : SectionNode :=
  mkNode (id n) (parent_id n) (section_key n) (name n) (is_leaf n) o (children n).

Definition with_children (n : SectionNode) (c : list SectionNode) : SectionNode :=
  mkNode (id n) (parent_id n) (section_key n) (name n) (is_leaf n) (order n) c.

(** ** Array primitives *)

Section Arrays.
Context {A : Type}.

(** [Array.prototype.findIndex]: index of the first element that
    satisfies [p], [-1] when there is none. *)
Fixpoint findIndex_from (p : A -> bool) (l : list A) (i : Z) : Z :=
  match l with
  | [] => -1
  | x :: l' => if p x then i else findIndex_from p l' (i + 1)
  end.

Definition findIndex (p : A -> bool) (l : list A) : Z := findIndex_from p l 0.

(** [Array.prototype.splice(start, deleteCount, ...items)]: the array
    after the call and the array of removed elements.  A negative
    [start] counts from the end, and both arguments are clamped to the
    array. *)
Definition splice (l : list A) (start deleteCount : Z) (items : list A)
  : list A * list A :=
  let len := Z.of_nat (length l) in
  let actualStart :=
    if start <? 0 then Z.max (len + start) 0 else Z.min start len in
  let actualDeleteCount := Z.min (Z.max deleteCount 0) (len - actualStart) in
  (take (Z.to_nat actualStart) l ++ items
     ++ drop (Z.to_nat (actualStart + actualDeleteCount)) l,
   take (Z.to_nat actualDeleteCount) (drop (Z.to_nat actualStart) l)).

(** [list.map((n, idx) => f n idx)] with the index counted from [i]. *)
Fixpoint mapi_from (f : A -> Z -> A) (l : list A) (i : Z) : list A :=
  match l with
  | [] => []
  | x :: l' => f x i :: mapi_from f l' (i + 1)
  end.
End Arrays.

(** ** [normalizeLocalOrders] *)

Definition normalizeLocalOrders (lst : list SectionNode) : list SectionNode :=
  mapi_from (fun n idx => with_order n (idx + 1)) lst 0.

(** ** [reorderTreeLocally] *)

Definition has_id (i : jsstring) (n : SectionNode) : bool := bool_decide (id n = i).

Section Reorder.
Variables (sectionId targetId : jsstring) (position : DropPosition).

(** The branch of [walk] taken when both indices were found: the body
    of [if (from !== -1 && to !== -1)] up to the renumbering.  [from]
    is an index of [lst] there, so [removed] holds one node, [moved]. *)
Definition moveWithin (lst : list SectionNode) (from to : Z) : list SectionNode :=
  let next := lst in
  let '(next, removed) := splice next from 1 [] in
  let moved := head removed in
  let insertAt :=
    if from <? to
    then (if decide (position = before) then to - 1 else to)
    else (if decide (position = before) then to else to + 1) in
  fst (splice next insertAt 0 (option_list moved)).

(** One level of [walk], with the recursive call on a node's children
    passed in as [walkNode]. *)
Definition walkLevel (walkNode : SectionNode -> SectionNode * bool)
    (lst : list SectionNode) : list SectionNode * bool :=
  let from := findIndex (has_id sectionId) lst in
  let to := findIndex (has_id targetId) lst in
  if bool_decide (from ≠ -1) && bool_decide (to ≠ -1) then
    (normalizeLocalOrders (moveWithin lst from to), true)
  else
    let results := walkNode <$> lst in
    let changed := existsb snd results in
    let next := fst <$> results in
    (if changed then next else lst, changed).

(** The callback of [list.map] in [walk]: the node that replaces [n],
    and whether it set [changed]. *)
Fixpoint walkNode (n : SectionNode) : SectionNode * bool :=
  match n with
  | mkNode i p k nm lf o ch =>
      match ch with
      | [] => (n, false)
      | _ :: _ =>
          let result := walkLevel walkNode ch in
          if snd result
          then (mkNode i p k nm lf o (fst result), true)
          else (n, false)
      end
  end.

Definition walk (lst : list SectionNode) : list SectionNode * bool :=
  walkLevel walkNode lst.

Definition reorderTreeLocally (nodes : list SectionNode) : list SectionNode :=
  fst (walk nodes).
End Reorder.

(** ** [getNodeMeta] *)

Record NodeMeta := mkMeta { parentId : option jsstring; meta_order : Z }.

(** [walk] of [getNodeMeta]: [metaNode n meta] is the body of the loop
    for one node, [metaWalk] the loop.  [meta.set] overwrites an entry
    that is already there. *)
Fixpoint metaNode (n : SectionNode) (meta : gmap jsstring NodeMeta)
  : gmap jsstring NodeMeta :=
  match n with
  | mkNode i p _ _ _ o ch =>
      let meta := <[i := mkMeta p o]> meta in
      match ch with
      | [] => meta
      | _ :: _ => foldl (fun m c => metaNode c m) meta ch
      end
  end.

Definition metaWalk (lst : list SectionNode) (meta : gmap jsstring NodeMeta)
  : gmap jsstring NodeMeta :=
  foldl (fun m n => metaNode n m) meta lst.

Definition getNodeMeta (nodes : list SectionNode) : gmap jsstring NodeMeta :=
  metaWalk nodes ∅.

(** ** Vocabulary for statements about trees *)

(** The sibling list reached from [nodes] by descending into the child
    at each index of [path] in turn. *)
Fixpoint groupAt (path : list nat) (nodes : list SectionNode)
  : option (list SectionNode) :=
  match path with
  | [] => Some nodes
  | i :: path' =>
      match nodes !! i with
      | Some n => groupAt path' (children n)
      | None => None
      end
  end.

(** A sibling list holds both ids: what [from !== -1 && to !== -1]
    tests. *)
Definition holdsBoth (s t : jsstring) (lst : list SectionNode) : Prop :=
  s ∈ id <$> lst ∧ t ∈ id <$> lst.

Global Instance holdsBoth_dec s t lst : Decision (holdsBoth s t lst).
Proof. unfold holdsBoth. apply _. Defined.

(** No sibling list strictly above the end of [path] holds both ids. *)
Fixpoint clearAbove (s t : jsstring) (path : list nat) (nodes : list SectionNode)
  : Prop :=
  match path with
  | [] => True
  | i :: path' =>
      ¬ holdsBoth s t nodes ∧
      match nodes !! i with
      | Some n => clearAbove s t path' (children n)
      | None => True
      end
  end.

(** Every id of the tree, parents before their children. *)
Fixpoint nodeIds (n : SectionNode) : list jsstring :=
  match n with
  | mkNode i _ _ _ _ _ ch => i :: concat (nodeIds <$> ch)
  end.

Definition treeIds (nodes : list SectionNode) : list jsstring :=
  concat (nodeIds <$> nodes).

(** Every node of the tree, parents before their children. *)
Fixpoint subnodes (n : SectionNode) : list SectionNode :=
  match n with
  | mkNode _ _ _ _ _ _ ch => n :: concat (subnodes <$> ch)
  end.

Definition treeNodes (nodes : list SectionNode) : list SectionNode :=
  concat (subnodes <$> nodes).

(** Two nodes agree on every field but [children]. *)
Definition sameRow (n m : SectionNode) : Prop :=
  id m = id n ∧ parent_id m = parent_id n ∧ section_key m = section_key n ∧
  name m = name n ∧ is_leaf m = is_leaf n ∧ order m = order n.

(** Two nodes agree on every field but [order]. *)
Definition sameButOrder (n m : SectionNode) : Prop :=
  m = with_order n (order m).

(** *** The move as the specification words it

    "Removes [sectionId] from its current slot in the sibling sequence
    and reinserts it immediately before/after [targetSectionId]". *)

Fixpoint removeSlot (s : jsstring) (lst : list SectionNode)
  : option (SectionNode * list SectionNode) :=
  match lst with
  | [] => None
  | n :: rest =>
      if has_id s n then Some (n, rest)
      else '(m, rest') ← removeSlot s rest; Some (m, n :: rest')
  end.

Fixpoint reinsert (position : DropPosition) (t : jsstring) (m : SectionNode)
    (lst : list SectionNode) : list SectionNode :=
  match lst with
  | [] => []
  | n :: rest =>
      if has_id t n
      then match position with
           | before => m :: n :: rest
           | after => n :: m :: rest
           end
      else n :: reinsert position t m rest
  end.

Definition editedInPlace (s t : jsstring) (position : DropPosition)
    (lst : list SectionNode) : list SectionNode :=
  match removeSlot s lst with
  | Some (m, rest) => reinsert position t m rest
  | None => lst
  end.

(** The values [1..n] in ascending sequence. *)
Definition oneTo (n : nat) : list Z := (fun i : nat => Z.of_nat i + 1) <$> seq 0 n.

(** ** Exceptions and the values of [JSON.parse] *)

(** What a [catch] clause can receive: an instance of [Error] with its
    [message] (this covers [TypeError], [SyntaxError] and the rejections
    of [fetch]), or any other value. *)
Inductive Thrown := ErrorObject (message : jsstring) | ThrownValue.

Inductive Completion (A : Type) := Normal (a : A) | Throw (e : Thrown).
Arguments Normal {A} a.
Arguments Throw {A} e.

(** [e instanceof Error ? e.message : fallback] *)
Definition messageOr (e : Thrown) (fallback : jsstring) : jsstring :=
  match e with
  | ErrorObject m => m
  | ThrownValue => fallback
  end.

(** A parsed response body.  A number is given by the string
    [Number::toString] prints for it (["2"], ["0.5"], ["1e+21"]), which
    determines it up to the sign of zero; an object lists its own
    properties, each key once. *)
Inductive json :=
| JNull
| JBool (b : bool)
| JNumber (text : jsstring)
| JString (s : jsstring)
| JArray (items : list json)
| JObject (props : list (jsstring * json)).

(** The message of the [TypeError] raised by a property read on [null]. *)
Definition nullReadMessage : jsstring :=
  js "Cannot read properties of null (reading 'detail')".

(** [data.detail]: [None] is [undefined]. *)
Definition detailOf (data : json) : Completion (option json) :=
  match data with
  | JNull => Throw (ErrorObject nullReadMessage)
  | JObject props =>
      Normal (snd <$> find (fun kv => bool_decide (fst kv = js "detail")) props)
  | _ => Normal None
  end.

(** [ToBoolean] *)
Definition truthy (v : option json) : bool :=
  match v with
  | None | Some JNull => false
  | Some (JBool b) => b
  | Some (JNumber text) => bool_decide (text ≠ js "0" ∧ text ≠ js "NaN")
  | Some (JString s) => bool_decide (s ≠ [])
  | Some (JArray _) | Some (JObject _) => true
  end.

(** [Array.prototype.join] on strings. *)
Fixpoint joinWith (sep : jsstring) (parts : list jsstring) : jsstring :=
  match parts with
  | [] => []
  | [p] => p
  | p :: rest => p ++ sep ++ joinWith sep rest
  end.

(** The message of the [TypeError] raised when an object has no way to
    become a primitive. *)
Definition notPrimitiveMessage : jsstring :=
  js "Cannot convert object to primitive value".

(** An object has an own property [key]. *)
Definition hasOwn (key : string) (props : list (jsstring * json)) : bool :=
  existsb (fun kv => bool_decide (fst kv = js key)) props.

(** [Array.prototype.join] on the converted elements: the first
    conversion that throws ends it. *)
Fixpoint joinParts (sep : jsstring) (parts : list (Completion jsstring))
  : Completion jsstring :=
  match parts with
  | [] => Normal []
  | [p] => p
  | p :: rest =>
      match p with
      | Throw e => Throw e
      | Normal first =>
          match joinParts sep rest with
          | Throw e => Throw e
          | Normal others => Normal (first ++ sep ++ others)
          end
      end
  end.

(** [ToString], which [new Error(v)] and a template literal apply.  An
    array is joined with commas, [null] elements giving the empty
    string.  An object is ["[object Object]"] through the inherited
    [toString]; an own property [toString] of a parsed object is never
    a function and hides it, and then the conversion throws. *)
Fixpoint ToString (v : json) : Completion jsstring :=
  match v with
  | JNull => Normal (js "null")
  | JBool true => Normal (js "true")
  | JBool false => Normal (js "false")
  | JNumber text => Normal text
  | JString s => Normal s
  | JArray items =>
      joinParts (js ",")
        ((fun x => match x with JNull => Normal [] | _ => ToString x end) <$> items)
  | JObject props =>
      if hasOwn "toString" props
      then Throw (ErrorObject notPrimitiveMessage)
      else Normal (js "[object Object]")
  end.

(** An object that hides the inherited [toString]. *)
Definition ownToString (v : json) : bool :=
  match v with
  | JObject props => hasOwn "toString" props
  | _ => false
  end.

(** What a list of objects converts to: every entry gives
    ["[object Object]"] unless one of them hides [toString]. *)
Definition objectsText (items : list json) : Completion jsstring :=
  if existsb ownToString items
  then Throw (ErrorObject notPrimitiveMessage)
  else Normal (joinWith (js ",") (replicate (length items) (js "[object Object]"))).

(** [detail || fallback], and [new Error(v)], which throws when [v]
    cannot be converted. *)
Definition orElse (detail : option json) (fallback : jsstring) : json :=
  if truthy detail then default (JString fallback) detail else JString fallback.

Definition newError (v : json) : Completion Thrown :=
  match ToString v with
  | Normal message => Normal (ErrorObject message)
  | Throw e => Throw e
  end.

(** ** [String.prototype.trim] *)

(** The code units of ECMAScript's WhiteSpace and LineTerminator. *)
Definition isWhiteSpace (c : N) : bool :=
  (bool_decide (c ∈ [9; 10; 11; 12; 13; 32; 160; 5760; 8232; 8233; 8239;
                     8287; 12288; 65279]%N)
   || ((8192 <=? c) && (c <=? 8202))%N)%bool.

Fixpoint trimStart (s : jsstring) : jsstring :=
  match s with
  | [] => []
  | c :: s' => if isWhiteSpace c then trimStart s' else s
  end.

Definition trim (s : jsstring) : jsstring :=
  reverse (trimStart (reverse (trimStart s))).

(** ** The outside world *)

Inductive DeleteStrategy := lift_children | cascade.

(** What [fetch] is called with, one constructor per endpoint of
    [api.ts]. *)
Inductive Request :=
| GET_sections
| POST_sections_import (file : jsstring)
| PUT_sections_move (section_id target_section_id : jsstring) (position : DropPosition)
| PATCH_section (sectionId name : jsstring)
| POST_sections (name : jsstring) (parent_id anchor_section_id : option jsstring)
    (anchor_position : DropPosition)
| DELETE_section (sectionId : jsstring) (strategy : DeleteStrategy).

Inductive Event :=
| Http (r : Request)
| ModalConfirm (title : jsstring).

(** What [fetch] resolves to: [res.ok], and what [res.json()] settles
    to (it rejects when the body is not JSON). *)
Record Response := mkResponse { res_ok : bool; res_json : Completion json }.

(** The server and the network between: given everything done so far,
    the request just sent last, what [fetch] settles to. *)
Definition Network := list Event -> Completion Response.

(** ** Component state *)

(** The [useState] cells of [App] that the handlers below read or
    write.  The set of collapsed rows and the scroll position take no
    part in them. *)
Record AppState := mkApp {
  tree : list SectionNode;
  loading : bool;
  importing : bool;
  error : jsstring;
  info : jsstring;
  moving : bool;
  renamingId : option jsstring;
  creatingId : option jsstring;
  deletingId : option jsstring;
  activeId : option jsstring;
  overId : option jsstring
}.

(** The state after one [useState] setter. *)
Definition withTree (a : AppState) (v : list SectionNode) : AppState :=
  mkApp v (loading a) (importing a) (error a) (info a) (moving a)
    (renamingId a) (creatingId a) (deletingId a) (activeId a) (overId a).
Definition withLoading (a : AppState) (v : bool) : AppState :=
  mkApp (tree a) v (importing a) (error a) (info a) (moving a)
    (renamingId a) (creatingId a) (deletingId a) (activeId a) (overId a).
Definition withError (a : AppState) (v : jsstring) : AppState :=
  mkApp (tree a) (loading a) (importing a) v (info a) (moving a)
    (renamingId a) (creatingId a) (deletingId a) (activeId a) (overId a).
Definition withMoving (a : AppState) (v : bool) : AppState :=
  mkApp (tree a) (loading a) (importing a) (error a) (info a) v
    (renamingId a) (creatingId a) (deletingId a) (activeId a) (overId a).
Definition withRenamingId (a : AppState) (v : option jsstring) : AppState :=
  mkApp (tree a) (loading a) (importing a) (error a) (info a) (moving a)
    v (creatingId a) (deletingId a) (activeId a) (overId a).
Definition withDeletingId (a : AppState) (v : option jsstring) : AppState :=
  mkApp (tree a) (loading a) (importing a) (error a) (info a) (moving a)
    (renamingId a) (creatingId a) v (activeId a) (overId a).
Definition withActiveId (a : AppState) (v : option jsstring) : AppState :=
  mkApp (tree a) (loading a) (importing a) (error a) (info a) (moving a)
    (renamingId a) (creatingId a) (deletingId a) v (overId a).
Definition withOverId (a : AppState) (v : option jsstring) : AppState :=
  mkApp (tree a) (loading a) (importing a) (error a) (info a) (moving a)
    (renamingId a) (creatingId a) (deletingId a) (activeId a) v.

Record World := mkWorld { ui : AppState; history : list Event }.

(** ** Sequencing, [throw], [try]/[catch]/[finally] *)

Definition M (S A : Type) : Type := S -> Completion A * S.

Global Instance M_ret {S} : MRet (M S) := fun A a s => (Normal a, s).

Global Instance M_bind {S} : MBind (M S) := fun A B k m s =>
  match m s with
  | (Normal a, s') => k a s'
  | (Throw e, s') => (Throw e, s')
  end.

Definition throw {S A} (e : Thrown) : M S A := fun s => (Throw e, s).

Definition settle {S A} (c : Completion A) : M S A := fun s => (c, s).

Definition tryCatch {S A} (body : M S A) (handler : Thrown -> M S A) : M S A :=
  fun s =>
    match body s with
    | (Throw e, s') => handler e s'
    | r => r
    end.

Definition tryFinally {S A} (body : M S A) (finalizer : M S unit) : M S A :=
  fun s =>
    let '(r, s') := body s in
    match finalizer s' with
    | (Normal _, s'') => (r, s'')
    | (Throw e, s'') => (Throw e, s'')
    end.

Definition noop {S} : M S unit := mret ().

(** ** [api.ts] *)

Section Client.
Variable net : Network.

(** [await fetch(...)]: the request goes on record and the network
    answers. *)
Definition fetch (r : Request) : M World Response := fun w =>
  let w' := mkWorld (ui w) (history w ++ [Http r]) in
  (net (history w'), w').

(** [await res.json()] and [data.detail]. *)
Definition jsonOf (res : Response) : M World json := settle (res_json res).
Definition detail (data : json) : M World (option json) := settle (detailOf data).

Definition fetchSections : M World json :=
  res ← fetch GET_sections;
  data ← jsonOf res;
  if negb (res_ok res)
  then d ← detail data;
       error ← settle (newError (orElse d (js "Failed to load sections")));
       throw error
  else mret data.

Definition importSectionsRequest (file : jsstring) : M World json :=
  res ← fetch (POST_sections_import file);
  data ← jsonOf res;
  if negb (res_ok res)
  then d ← detail data;
       error ← settle (newError (orElse d (js "Import failed")));
       throw error
  else mret data.

Definition moveSectionRequest (sectionId targetSectionId : jsstring)
    (position : DropPosition) : M World unit :=
  res ← fetch (PUT_sections_move sectionId targetSectionId position);
  data ← jsonOf res;
  if negb (res_ok res)
  then d ← detail data;
       error ← settle (newError (orElse d (js "Move failed")));
       throw error
  else mret ().

Definition renameSectionRequest (sectionId name : jsstring) : M World unit :=
  res ← fetch (PATCH_section sectionId name);
  data ← jsonOf res;
  if negb (res_ok res)
  then d ← detail data;
       error ← settle (newError (orElse d (js "Rename failed")));
       throw error
  else mret ().

Definition createSectionRequest (name : jsstring) (parentId : option jsstring)
    (anchorSectionId : option jsstring) (anchorPosition : DropPosition)
  : M World json :=
  res ← fetch (POST_sections name parentId anchorSectionId anchorPosition);
  data ← jsonOf res;
  if negb (res_ok res)
  then d ← detail data;
       error ← settle (newError (orElse d (js "Create failed")));
       throw error
  else mret data.

Definition deleteSectionRequest (sectionId : jsstring) (strategy : DeleteStrategy)
  : M World unit :=
  res ← fetch (DELETE_section sectionId strategy);
  data ← jsonOf res;
  if negb (res_ok res)
  then d ← detail data;
       error ← settle (newError (orElse d (js "Delete failed")));
       throw error
  else mret ().

(** ** The [App] component of [types.ts] *)

(** [fetchSections] is declared to return [SectionNode[]]: the parsed
    body is used as a tree without any check.  [asSectionNodes] is
    that reading of the body. *)
Variable asSectionNodes : json -> list SectionNode.

Definition setUi (f : AppState -> AppState) : M World unit := fun w =>
  (Normal (), mkWorld (f (ui w)) (history w)).

Definition setTree (f : list SectionNode -> list SectionNode) : M World unit :=
  setUi (fun a => withTree a (f (tree a))).
Definition setLoading (v : bool) : M World unit := setUi (fun a => withLoading a v).
Definition setError (v : jsstring) : M World unit := setUi (fun a => withError a v).
Definition setMoving (v : bool) : M World unit := setUi (fun a => withMoving a v).
Definition setRenamingId (v : option jsstring) : M World unit :=
  setUi (fun a => withRenamingId a v).
Definition setDeletingId (v : option jsstring) : M World unit :=
  setUi (fun a => withDeletingId a v).
Definition setActiveId (v : option jsstring) : M World unit :=
  setUi (fun a => withActiveId a v).
Definition setOverId (v : option jsstring) : M World unit :=
  setUi (fun a => withOverId a v).

Definition loadSections (silent : bool) : M World unit :=
  (if negb silent then setLoading true;; setError [] else noop);;
  tryFinally
    (tryCatch
       (data ← fetchSections;
        setTree (fun _ => asSectionNodes data))
       (fun e => setError (messageOr e (js "Unknown error"))))
    (if negb silent then setLoading false else noop).

(** [tree] inside the handler is the state of the render that created
    it; handlers run one at a time, so that is the state the handler
    starts from. *)
Definition moveSectionByAnchor (sectionId targetId : jsstring) : M World unit :=
  fun w =>
  let tree := tree (ui w) in
  (if decide (sectionId = targetId) then noop else
   let meta := getNodeMeta tree in
   match meta !! sectionId, meta !! targetId with
   | Some dragged, Some target =>
       if decide (parentId dragged ≠ parentId target)
       then setError (js "Cross-parent moves are not allowed.")
       else
         let position :=
           if meta_order dragged <? meta_order target then after else before in
         setMoving true;;
         setError [];;
         let previousTree := tree in
         setTree (fun prev => reorderTreeLocally sectionId targetId position prev);;
         tryFinally
           (tryCatch
              (moveSectionRequest sectionId targetId position;;
               loadSections true)
              (fun e =>
                 setTree (fun _ => previousTree);;
                 setError (messageOr e (js "Move failed"))))
           (setMoving false;; setActiveId None;; setOverId None)
   | _, _ => noop
   end) w.

Definition renameSection (sectionId name : jsstring) : M World unit :=
  setError [];;
  setRenamingId (Some sectionId);;
  tryFinally
    (tryCatch
       (renameSectionRequest sectionId name;;
        loadSections true)
       (fun e => setError (messageOr e (js "Rename failed"))))
    (setRenamingId None).

(** The dialog [Modal.confirm] opens: its title and what the
    "Delete All" button runs.  "Keep" has no handler. *)
Record ConfirmDialog := mkDialog { dialogTitle : jsstring; onOk : M World unit }.

Definition modalConfirm (d : ConfirmDialog) : M World (option ConfirmDialog) :=
  fun w =>
  (Normal (Some d), mkWorld (ui w) (history w ++ [ModalConfirm (dialogTitle d)])).

(** [onDeleteSection] returns the dialog it opened, if any; the user
    then clicks "Delete All" ([clickOk]) or "Keep" ([clickCancel]). *)
Definition onDeleteSection (node : SectionNode) : M World (option ConfirmDialog) :=
  match children node with
  | _ :: _ =>
      modalConfirm
        (mkDialog (js "Delete children too?")
           (setDeletingId (Some (id node));;
            setError [];;
            tryFinally
              (tryCatch
                 (deleteSectionRequest (id node) cascade;;
                  loadSections true)
                 (fun e => setError (messageOr e (js "Delete failed"))))
              (setDeletingId None)))
  | [] =>
      setDeletingId (Some (id node));;
      setError [];;
      tryFinally
        (tryCatch
           (deleteSectionRequest (id node) lift_children;;
            loadSections true)
           (fun e => setError (messageOr e (js "Delete failed"))))
        (setDeletingId None);;
      mret None
  end.

Definition clickOk (d : option ConfirmDialog) : M World unit :=
  match d with
  | Some d => onOk d
  | None => noop
  end.

Definition clickCancel (d : option ConfirmDialog) : M World unit := noop.

(** ** [SectionRow.tsx]: the rename editor of one row *)

Record RowState := mkRow { isEditing : bool; draftName : jsstring }.

Definition setIsEditing (v : bool) : M (RowState * World) unit := fun s =>
  (Normal (), (mkRow v (draftName (fst s)), snd s)).
Definition setDraftName (v : jsstring) : M (RowState * World) unit := fun s =>
  (Normal (), (mkRow (isEditing (fst s)) v, snd s)).

(** A call of a prop of the parent component. *)
Definition inApp {A} (m : M World A) : M (RowState * World) A := fun s =>
  let '(r, w) := m (snd s) in (r, (fst s, w)).

Definition handleSave (node : SectionNode)
    (onRename : jsstring -> jsstring -> M World unit) : M (RowState * World) unit :=
  fun s =>
  let trimmed := trim (draftName (fst s)) in
  (if bool_decide (trimmed = []) || bool_decide (trimmed = name node)
   then
     setIsEditing false;;
     setDraftName (name node)
   else
     inApp (onRename (id node) trimmed);;
     setIsEditing false) s.
End Client.

(** ** The contract of a request helper

    [call] sends [req] and nothing else, leaves the component state
    alone, and completes according to the response: the parser's error
    when the body is not JSON; a normal return of [result data] when
    [res.ok]; otherwise an [Error] whose message is [detail] converted
    to a string when [detail] is truthy, and [fallback] when it is not.
    A body that is [null] makes the property read throw, and a [detail]
    that cannot be converted makes the conversion throw. *)
Definition honoursDetail {A} (net : Network) (call : M World A) (req : Request)
    (fallback : jsstring) (result : json -> A) : Prop :=
  ∀ w,
    snd (call w) = mkWorld (ui w) (history w ++ [Http req]) ∧
    (∀ e, net (history w ++ [Http req]) = Throw e → fst (call w) = Throw e) ∧
    ∀ res, net (history w ++ [Http req]) = Normal res →
      (∀ e, res_json res = Throw e → fst (call w) = Throw e) ∧
      (∀ data, res_json res = Normal data → res_ok res = true →
         fst (call w) = Normal (result data)) ∧
      (∀ data v message, res_json res = Normal data → res_ok res = false →
         detailOf data = Normal (Some v) → truthy (Some v) = true →
         ToString v = Normal message →
         fst (call w) = Throw (ErrorObject message)) ∧
      (∀ data v e, res_json res = Normal data → res_ok res = false →
         detailOf data = Normal (Some v) → truthy (Some v) = true →
         ToString v = Throw e →
         fst (call w) = Throw e) ∧
      (∀ data d, res_json res = Normal data → res_ok res = false →
         detailOf data = Normal d → truthy d = false →
         fst (call w) = Throw (ErrorObject fallback)) ∧
      (∀ data e, res_json res = Normal data → res_ok res = false →
         detailOf data = Throw e → fst (call w) = Throw e).

(** ** Sample data *)

Definition leaf (i : string) (p : option string) (o : Z) : SectionNode :=
  mkNode (js i) (js <$> p) (js i) (js i) true o [].

Definition branch (i : string) (p : option string) (o : Z)
    (ch : list SectionNode) : SectionNode :=
  mkNode (js i) (js <$> p) (js i) (js i) false o ch.

(** Siblings A(1), B(2), C(3) under parent P. *)
Definition ABC : list SectionNode :=
  [leaf "A" (Some "P") 1; leaf "B" (Some "P") 2; leaf "C" (Some "P") 3].

Definition underP : list SectionNode := [branch "P" None 1 ABC].

(** A tree that uses the ids [a] and [b] twice, one pair below the
    other. *)
Definition innerPair : list SectionNode :=
  [leaf "a" (Some "a") 1; leaf "b" (Some "a") 2].

Definition shadowed : list SectionNode :=
  [branch "a" None 1 innerPair; leaf "b" None 2].

(** A tree that uses the ids [a] and [b] twice, side by side. *)
Definition twins : list SectionNode :=
  [branch "P" None 1 [leaf "a" (Some "P") 1; leaf "b" (Some "P") 2];
   branch "Q" None 2 [leaf "a" (Some "Q") 1; leaf "b" (Some "Q") 2]].

Definition idle (nodes : list SectionNode) : World :=
  mkWorld (mkApp nodes false false [] [] false None None None None None) [].

(** A network that settles every [fetch] the same way. *)
Definition always (r : Completion Response) : Network := fun _ => r.

Definition noTree : json -> list SectionNode := fun _ => [].

(** A network on which every request succeeds but the reload. *)
Definition reloadFails : Network := fun h =>
  match last h with
  | Some (Http GET_sections) => Throw (ErrorObject (js "Failed to fetch"))
  | _ => Normal (mkResponse true (Normal JNull))
  end.

(** A reading of the body that tells a reloaded tree from a local one. *)
Definition fromServer : json -> list SectionNode := fun _ =>
  [mkNode (js "server") None [] [] true 1 []].

(** ** The rest of [App]: create, drag, collapse, import *)

Definition withImporting (a : AppState) (v : bool) : AppState :=
  mkApp (tree a) (loading a) v (error a) (info a) (moving a)
    (renamingId a) (creatingId a) (deletingId a) (activeId a) (overId a).
Definition withInfo (a : AppState) (v : jsstring) : AppState :=
  mkApp (tree a) (loading a) (importing a) (error a) v (moving a)
    (renamingId a) (creatingId a) (deletingId a) (activeId a) (overId a).
Definition withCreatingId (a : AppState) (v : option jsstring) : AppState :=
  mkApp (tree a) (loading a) (importing a) (error a) (info a) (moving a)
    (renamingId a) v (deletingId a) (activeId a) (overId a).

Inductive AddMode := sibling | child.

(** [ToBoolean] of a [string | null]: [null] and the empty string are
    falsy. *)
Definition present (v : option jsstring) : bool :=
  match v with
  | Some (_ :: _) => true
  | _ => false
  end.

(** The fields of the import summary that [onImportChange] reads; no
    prototype defines a property of these names. *)
Inductive SummaryField := inserted | source | roots | leaves.

Definition fieldName (f : SummaryField) : string :=
  match f with
  | inserted => "inserted"
  | source => "source"
  | roots => "roots"
  | leaves => "leaves"
  end.

(** [result.field], [None] being [undefined]; a read on [null] throws. *)
Definition propertyOf (field : SummaryField) (data : json)
  : Completion (option json) :=
  match data with
  | JNull =>
      Throw (ErrorObject
               (js ("Cannot read properties of null (reading '"
                    ++ fieldName field ++ "')")))
  | JObject props =>
      Normal (snd <$> find (fun kv => bool_decide (fst kv = js (fieldName field))) props)
  | _ => Normal None
  end.

(** A substitution [${v}] of a template literal: [ToString]. *)
Definition substitution (v : option json) : Completion jsstring :=
  match v with
  | Some v => ToString v
  | None => Normal (js "undefined")
  end.

(** The template literal of [onImportChange]: each field is read and
    converted in turn. *)
Definition summaryText (result : json) : Completion jsstring :=
  match propertyOf inserted result with Throw e => Throw e | Normal i =>
  match substitution i with Throw e => Throw e | Normal insertedText =>
  match propertyOf source result with Throw e => Throw e | Normal s =>
  match substitution s with Throw e => Throw e | Normal sourceText =>
  match propertyOf roots result with Throw e => Throw e | Normal r =>
  match substitution r with Throw e => Throw e | Normal rootsText =>
  match propertyOf leaves result with Throw e => Throw e | Normal l =>
  match substitution l with Throw e => Throw e | Normal leavesText =>
    Normal (js "Imported " ++ insertedText ++ js " sections from " ++ sourceText
            ++ js " (" ++ rootsText ++ js " roots, " ++ leavesText
            ++ js " leaves).")
  end end end end end end end end.

(** What [onDragStart], [onDragOver] and [onDragEnd] read of their
    event: [String(event.active.id)], and [String(event.over.id)] when
    [event.over] is not [null]. *)
Record DragEvent := mkDrag { active : jsstring; over : option jsstring }.

(** [toggleCollapse], on the set it hands to [setCollapsedIds]. *)
Definition toggleCollapse (sectionId : jsstring) (prev : gset jsstring)
  : gset jsstring :=
  let next := prev in
  if decide (sectionId ∈ next) then next ∖ {[sectionId]} else {[sectionId]} ∪ next.

Section Handlers.
Variables (net : Network) (asSectionNodes : json -> list SectionNode).

Definition setImporting (v : bool) : M World unit := setUi (fun a => withImporting a v).
Definition setInfo (v : jsstring) : M World unit := setUi (fun a => withInfo a v).
Definition setCreatingId (v : option jsstring) : M World unit :=
  setUi (fun a => withCreatingId a v).

Definition onCreateSection (name : jsstring) (parentId anchorId : option jsstring)
    (mode : AddMode) : M World unit :=
  if bool_decide (trim name = []) then noop else
  (if present anchorId then setCreatingId anchorId else noop);;
  setError [];;
  tryFinally
    (tryCatch
       (_ ← createSectionRequest net (trim name) parentId
              (match mode with sibling => anchorId | child => None end) after;
        loadSections net asSectionNodes true)
       (fun e => setError (messageOr e (js "Create failed"))))
    (setCreatingId None).

Definition onDragStart (event : DragEvent) : M World unit :=
  setActiveId (Some (active event)).

Definition onDragOver (event : DragEvent) : M World unit :=
  setOverId (over event).

Definition onDragEnd (event : DragEvent) : M World unit :=
  let active := active event in
  let over := over event in
  if negb (present over)
  then setActiveId None;; setOverId None
  else moveSectionByAnchor net asSectionNodes active (default [] over).

(** A handler of [App] run from a component that has state [S] of its
    own. *)
Definition inWorld {S A} (m : M World A) : M (S * World) A := fun s =>
  let '(r, w) := m (snd s) in (r, (fst s, w)).

(** [event.target.value = v] on the file input. *)
Definition setInputValue (v : jsstring) : M (jsstring * World) unit := fun s =>
  (Normal (), (v, snd s)).

(** [onImportChange]: the state beside the world is the [value] of the
    file input; the event carries [event.target.files]. *)
Definition onImportChange (files : list jsstring) : M (jsstring * World) unit :=
  match head files with
  | None => noop (S := jsstring * World)
  | Some file =>
      inWorld (S := jsstring) (setImporting true);;
      inWorld (S := jsstring) (setError []);;
      inWorld (S := jsstring) (setInfo []);;
      tryFinally
        (tryCatch
           (result ← inWorld (S := jsstring) (importSectionsRequest net file);
            inWorld (S := jsstring) (loadSections net asSectionNodes true);;
            text ← settle (S := jsstring * World) (summaryText result);
            inWorld (S := jsstring) (setInfo text))
           (fun e => inWorld (S := jsstring) (setError (messageOr e (js "Import failed")))))
        (inWorld (S := jsstring) (setImporting false);;
         setInputValue [])
  end.

(** ** [SectionRow.tsx]: the add form of one row *)

Record AddForm := mkAddForm { addMode : option AddMode; addDraftName : jsstring }.

Definition setAddDraftName (v : jsstring) : M (AddForm * World) unit := fun s =>
  (Normal (), (mkAddForm (addMode (fst s)) v, snd s)).
Definition setAddMode (v : option AddMode) : M (AddForm * World) unit := fun s =>
  (Normal (), (mkAddForm v (addDraftName (fst s)), snd s)).

Definition handleCreate (node : SectionNode)
    (onCreateSection :
       jsstring -> option jsstring -> option jsstring -> AddMode -> M World unit)
  : M (AddForm * World) unit :=
  fun s =>
  let trimmed := trim (addDraftName (fst s)) in
  match addMode (fst s) with
  | Some addMode =>
      if bool_decide (trimmed = []) then noop s else
      let parentId :=
        match addMode with child => Some (id node) | sibling => parent_id node end in
      let anchorId :=
        match addMode with sibling => Some (id node) | child => None end in
      (inWorld (onCreateSection trimmed parentId anchorId addMode);;
       setAddDraftName [];;
       setAddMode None) s
  | None => noop s
  end.
End Handlers.

(** ** [SectionTree.tsx]: the rows on screen *)

(** The props of a [SectionRow] that vary from row to row. *)
Record Row := mkRowProps { rowNode : SectionNode; rowDepth : nat; isCollapsed : bool }.

(** [SectionTree]: the [SectionRow] elements it renders, in document
    order.  [rowsBelow] is one iteration of [nodes.map]: the row of the
    node, then the nested [SectionTree] of its children unless the node
    is collapsed or has none. *)
Fixpoint rowsBelow (collapsedIds : gset jsstring) (depth : nat) (node : SectionNode)
  : list Row :=
  match node with
  | mkNode i _ _ _ _ _ ch =>
      mkRowProps node depth (bool_decide (i ∈ collapsedIds))
      :: (if bool_decide (ch ≠ []) && negb (bool_decide (i ∈ collapsedIds))
          then concat (rowsBelow collapsedIds (S depth) <$> ch)
          else [])
  end.

Definition SectionTree (collapsedIds : gset jsstring) (depth : nat)
    (nodes : list SectionNode) : list Row :=
  concat (rowsBelow collapsedIds depth <$> nodes).

(** The entry the index ends up with for [s]: that of the last node in
    traversal order that carries [s], or the inherited one. *)
Definition lastWith (s : jsstring) (ns : list SectionNode)
    (inherited : option NodeMeta) : option NodeMeta :=
  match last (filter (fun x => id x = s) ns) with
  | Some x => Some (mkMeta (parent_id x) (order x))
  | None => inherited
  end.

(** * Properties *)

(** ** Arrays *)

Section ArrayFacts.
Context {A : Type}.
Implicit Types (p : A -> bool) (l : list A).

Lemma findIndex_from_miss p l i :
  0 ≤ i → findIndex_from p l i = -1 ↔ Forall (fun x => p x = false) l.
Proof.
  revert i; induction l as [|x l IH]; intros i Hi; simpl.
  - split; [constructor|done].
  - destruct (p x) eqn:Hx.
    + split; [lia|]. inversion 1; congruence.
    + rewrite IH by lia. split; [by constructor|by inversion 1].
Qed.

Lemma findIndex_miss p l :
  findIndex p l = -1 ↔ Forall (fun x => p x = false) l.
Proof. by apply findIndex_from_miss. Qed.

Lemma findIndex_from_first p l1 x l2 i :
  Forall (fun y => p y = false) l1 → p x = true →
  findIndex_from p (l1 ++ x :: l2) i = i + Z.of_nat (length l1).
Proof.
  intros Hl1 Hx. revert i.
  induction Hl1 as [|y l1 Hy _ IH]; intros i; simpl.
  - rewrite Hx. lia.
  - rewrite Hy, IH. lia.
Qed.

Lemma findIndex_first p l1 x l2 :
  Forall (fun y => p y = false) l1 → p x = true →
  findIndex p (l1 ++ x :: l2) = Z.of_nat (length l1).
Proof. intros. unfold findIndex. by rewrite findIndex_from_first. Qed.

(** An array either has no element that satisfies [p], or splits at
    the first one. *)
Lemma first_split p l :
  Forall (fun x => p x = false) l ∨
  ∃ l1 x l2, l = l1 ++ x :: l2 ∧ Forall (fun y => p y = false) l1 ∧ p x = true.
Proof.
  induction l as [|y l IH]; [by left|].
  destruct (p y) eqn:Hy.
  - right. by exists [], y, l.
  - destruct IH as [IH|(l1 & x & l2 & -> & H1 & Hx)].
    + left. by constructor.
    + right. exists (y :: l1), x, l2. by repeat split; [constructor|].
Qed.

Lemma findIndex_found p l :
  findIndex p l ≠ -1 →
  ∃ l1 x l2, l = l1 ++ x :: l2 ∧ Forall (fun y => p y = false) l1 ∧
             p x = true ∧ findIndex p l = Z.of_nat (length l1).
Proof.
  intros Hne. destruct (first_split p l) as [H|(l1 & x & l2 & -> & H1 & Hx)].
  - by apply findIndex_miss in H.
  - exists l1, x, l2. by rewrite findIndex_first.
Qed.

Lemma splice_remove_one l1 (x : A) l2 :
  splice (l1 ++ x :: l2) (Z.of_nat (length l1)) 1 [] = (l1 ++ l2, [x]).
Proof.
  unfold splice. rewrite length_app. simpl length.
  rewrite (proj2 (Z.ltb_ge _ _)) by lia.
  rewrite Z.min_l by lia.
  replace (Z.min (Z.max 1 0) _) with 1 by lia.
  rewrite Nat2Z.id.
  replace (Z.to_nat (Z.of_nat (length l1) + 1)) with (length l1 + 1)%nat by lia.
  rewrite take_app_length, drop_app_length.
  f_equal. simpl. f_equal.
  rewrite <- drop_drop, drop_app_length. done.
Qed.

Lemma splice_insert_at l1 l2 (items : list A) :
  fst (splice (l1 ++ l2) (Z.of_nat (length l1)) 0 items) = l1 ++ items ++ l2.
Proof.
  unfold splice. rewrite length_app. simpl.
  rewrite (proj2 (Z.ltb_ge _ _)) by lia.
  rewrite Z.min_l by lia.
  replace (Z.min (Z.max 0 0) _) with 0 by lia.
  rewrite Z.add_0_r, Nat2Z.id, take_app_length, drop_app_length. done.
Qed.

Lemma mapi_from_length (f : A -> Z -> A) l i :
  length (mapi_from f l i) = length l.
Proof. revert i; induction l; intros; simpl; by f_equal. Qed.

Lemma mapi_from_lookup (f : A -> Z -> A) l i (k : nat) :
  mapi_from f l i !! k = (fun x => f x (i + Z.of_nat k)) <$> l !! k.
Proof.
  revert i k; induction l as [|x l IH]; intros i [|k]; simpl; try done.
  - by rewrite Z.add_0_r.
  - rewrite IH. destruct (l !! k); simpl; [|done]. do 2 f_equal. lia.
Qed.
End ArrayFacts.

(** ** Sibling lists *)

Lemma has_id_true i n : has_id i n = true ↔ id n = i.
Proof. unfold has_id. by rewrite bool_decide_eq_true. Qed.

Lemma has_id_false i n : has_id i n = false ↔ id n ≠ i.
Proof. unfold has_id. by rewrite bool_decide_eq_false. Qed.

Lemma absent_iff i (lst : list SectionNode) :
  Forall (fun n => has_id i n = false) lst ↔ i ∉ id <$> lst.
Proof.
  rewrite Forall_forall, list_elem_of_fmap. split.
  - intros H (n & -> & Hn). specialize (H n Hn). by apply has_id_false in H.
  - intros H n Hn. apply has_id_false. intros <-. apply H. by exists n.
Qed.

Lemma findIndex_has_id i (lst : list SectionNode) :
  findIndex (has_id i) lst ≠ -1 ↔ i ∈ id <$> lst.
Proof.
  rewrite findIndex_miss, absent_iff.
  destruct (decide (i ∈ id <$> lst)); naive_solver.
Qed.

Lemma found_both_iff s t (lst : list SectionNode) :
  bool_decide (findIndex (has_id s) lst ≠ -1)
    && bool_decide (findIndex (has_id t) lst ≠ -1) = true
  ↔ holdsBoth s t lst.
Proof.
  rewrite andb_true_iff, !bool_decide_eq_true, !findIndex_has_id. done.
Qed.

Lemma removeSlot_first s l1 x l2 :
  Forall (fun n => has_id s n = false) l1 → has_id s x = true →
  removeSlot s (l1 ++ x :: l2) = Some (x, l1 ++ l2).
Proof.
  intros H1 Hx. induction H1 as [|y l1 Hy _ IH]; simpl.
  - by rewrite Hx.
  - by rewrite Hy, IH.
Qed.

Lemma reinsert_first position t m l1 y l2 :
  Forall (fun n => has_id t n = false) l1 → has_id t y = true →
  reinsert position t m (l1 ++ y :: l2) =
  l1 ++ match position with before => [m; y] | after => [y; m] end ++ l2.
Proof.
  intros H1 Hy. induction H1 as [|z l1 Hz _ IH]; simpl.
  - rewrite Hy. by destruct position.
  - by rewrite Hz, IH.
Qed.

(** The index arithmetic of [walk] realises the edit in place, wherever
    the moved node stands relative to the target. *)
Lemma moveWithin_editedInPlace s t position (lst : list SectionNode) :
  s ≠ t → holdsBoth s t lst →
  moveWithin position lst (findIndex (has_id s) lst) (findIndex (has_id t) lst)
  = editedInPlace s t position lst.
Proof.
  intros Hst [Hs Ht].
  apply findIndex_has_id, findIndex_found in Hs
    as (l1 & x & l2 & -> & Hl1 & Hx & Hfrom).
  unfold editedInPlace, moveWithin.
  rewrite (removeSlot_first s l1 x l2 Hl1 Hx), Hfrom, splice_remove_one.
  change (option_list (head [x])) with [x].
  assert (Hxt : has_id t x = false).
  { apply has_id_false. apply has_id_true in Hx. congruence. }
  destruct (first_split (has_id t) l1) as [Hno|(a & y & b & -> & Ha & Hy)].
  - (* the target stands after the moved node *)
    assert (Ht2 : t ∈ id <$> l2).
    { rewrite fmap_app, fmap_cons, elem_of_app, elem_of_cons in Ht.
      apply absent_iff in Hno. apply has_id_false in Hxt.
      destruct Ht as [?|[?|?]]; done. }
    apply findIndex_has_id, findIndex_found in Ht2
      as (a & y & b & -> & Ha & Hy & _).
    replace (l1 ++ x :: a ++ y :: b) with ((l1 ++ x :: a) ++ y :: b)
      by (by rewrite <- app_assoc).
    rewrite findIndex_first; [|by auto using Forall_app_2, Forall_cons_2|done].
    rewrite app_assoc, (reinsert_first _ _ _ (l1 ++ a)) by auto using Forall_app_2.
    rewrite length_app. simpl length.
    rewrite (proj2 (Z.ltb_lt _ _)) by lia.
    destruct position; [rewrite decide_True by done|rewrite decide_False by done].
    + replace (Z.of_nat (length l1 + S (length a)) - 1)
        with (Z.of_nat (length (l1 ++ a))) by (rewrite length_app; lia).
      by rewrite splice_insert_at.
    + replace (Z.of_nat (length l1 + S (length a)))
        with (Z.of_nat (length ((l1 ++ a) ++ [y]))) by (rewrite !length_app; simpl; lia).
      replace ((l1 ++ a) ++ y :: b) with (((l1 ++ a) ++ [y]) ++ b)
        by (by rewrite <- (app_assoc _ [y])).
      rewrite splice_insert_at. by rewrite <- !app_assoc.
  - (* the target stands before the moved node *)
    rewrite <- !app_assoc. simpl app.
    rewrite findIndex_first by done.
    rewrite (reinsert_first _ _ _ a) by done.
    rewrite length_app. simpl length.
    rewrite (proj2 (Z.ltb_ge _ _)) by lia.
    destruct position; [rewrite decide_True by done|rewrite decide_False by done].
    + by rewrite splice_insert_at.
    + replace (Z.of_nat (length a) + 1) with (Z.of_nat (length (a ++ [y])))
        by (rewrite length_app; simpl; lia).
      replace (a ++ y :: b ++ l2) with ((a ++ [y]) ++ b ++ l2)
        by (by rewrite <- app_assoc).
      rewrite splice_insert_at. by rewrite <- !app_assoc.
Qed.

(** ** Renumbering *)

Lemma normalizeLocalOrders_length lst :
  length (normalizeLocalOrders lst) = length lst.
Proof. apply mapi_from_length. Qed.

Lemma normalizeLocalOrders_lookup lst (k : nat) :
  normalizeLocalOrders lst !! k
  = (fun n => with_order n (Z.of_nat k + 1)) <$> lst !! k.
Proof. unfold normalizeLocalOrders. by rewrite mapi_from_lookup. Qed.

Lemma oneTo_lookup n (k : nat) :
  oneTo n !! k = if decide (k < n)%nat then Some (Z.of_nat k + 1) else None.
Proof.
  unfold oneTo. rewrite list_lookup_fmap.
  destruct (decide (k < n)%nat).
  - by rewrite lookup_seq_lt.
  - by rewrite lookup_seq_ge by lia.
Qed.

Lemma normalizeLocalOrders_orders lst :
  order <$> normalizeLocalOrders lst = oneTo (length lst).
Proof.
  apply list_eq; intros k.
  rewrite list_lookup_fmap, normalizeLocalOrders_lookup, oneTo_lookup.
  destruct (lst !! k) eqn:E; simpl.
  - apply lookup_lt_Some in E. by rewrite decide_True.
  - apply lookup_ge_None in E. by rewrite decide_False by lia.
Qed.

Lemma normalizeLocalOrders_rows lst :
  Forall2 sameButOrder lst (normalizeLocalOrders lst).
Proof.
  apply Forall2_same_length_lookup. split.
  - by rewrite normalizeLocalOrders_length.
  - intros k n m Hn. rewrite normalizeLocalOrders_lookup, Hn.
    intros [= <-]. done.
Qed.

(** ** The tree walk *)

Lemma with_children_same n : with_children n (children n) = n.
Proof. by destruct n. Qed.

Section WalkFacts.
Variables (sectionId targetId : jsstring) (position : DropPosition).

Abbreviation wNode := (walkNode sectionId targetId position).
Abbreviation wList := (walk sectionId targetId position).
Abbreviation reorder := (reorderTreeLocally sectionId targetId position).

Lemma walk_hit lst :
  holdsBoth sectionId targetId lst →
  wList lst =
  (normalizeLocalOrders
     (moveWithin position lst (findIndex (has_id sectionId) lst)
        (findIndex (has_id targetId) lst)), true).
Proof.
  intros H. apply found_both_iff in H.
  unfold walk, walkLevel. by rewrite H.
Qed.

Lemma walk_miss lst :
  ¬ holdsBoth sectionId targetId lst →
  wList lst =
  (if existsb snd (wNode <$> lst) then fst <$> (wNode <$> lst) else lst,
   existsb snd (wNode <$> lst)).
Proof.
  intros H. rewrite <- found_both_iff in H. apply not_true_is_false in H.
  unfold walk, walkLevel. by rewrite H.
Qed.

(** [walk] hands back its argument when it reports no change. *)
Lemma walk_unchanged lst : snd (wList lst) = false → fst (wList lst) = lst.
Proof.
  destruct (decide (holdsBoth sectionId targetId lst)) as [H|H].
  - by rewrite walk_hit.
  - rewrite walk_miss by done. simpl. by intros ->.
Qed.

Lemma walkNode_children n :
  fst (wNode n) = with_children n (reorder (children n)).
Proof.
  destruct n as [i p k nm lf o [|c ch]]; [done|].
  unfold reorderTreeLocally. cbn [children walkNode].
  change (walkLevel sectionId targetId position wNode (c :: ch))
    with (wList (c :: ch)).
  destruct (snd (wList (c :: ch))) eqn:E; [done|].
  by rewrite walk_unchanged.
Qed.

Lemma walkNode_unchanged n : snd (wNode n) = false → fst (wNode n) = n.
Proof.
  destruct n as [i p k nm lf o [|c ch]]; [done|].
  cbn [walkNode].
  by destruct (snd (walkLevel sectionId targetId position wNode (c :: ch))).
Qed.

(** [reorderTreeLocally] as a recursive equation: the sibling list
    that holds both ids is edited and renumbered, any other list is
    kept node by node and the walk continues below each node. *)
Lemma reorder_unfold nodes :
  reorder nodes =
  if decide (holdsBoth sectionId targetId nodes)
  then normalizeLocalOrders
         (moveWithin position nodes (findIndex (has_id sectionId) nodes)
            (findIndex (has_id targetId) nodes))
  else (fun n => with_children n (reorder (children n))) <$> nodes.
Proof.
  unfold reorderTreeLocally at 1.
  destruct (decide (holdsBoth sectionId targetId nodes)) as [H|H].
  - by rewrite walk_hit.
  - rewrite walk_miss by done. cbn [fst].
    destruct (existsb snd (wNode <$> nodes)) eqn:E.
    + rewrite <- list_fmap_compose. apply list_fmap_ext.
      intros j n _. apply walkNode_children.
    + rewrite <- (list_fmap_id nodes) at 1. apply list_fmap_ext.
      intros j n Hn. simpl. rewrite <- walkNode_children.
      symmetry. apply walkNode_unchanged.
      destruct (snd (wNode n)) eqn:En; [|done].
      apply not_true_iff_false in E. destruct E.
      apply existsb_exists. exists (wNode n). split; [|done].
      apply list_elem_of_In, list_elem_of_fmap. exists n. split; [done|].
      by eapply list_elem_of_lookup_2.
Qed.
End WalkFacts.

(** ** Sibling lists inside a tree *)

Lemma SectionNode_nested_ind (P : SectionNode → Prop) :
  (∀ i p k nm lf o ch, Forall P ch → P (mkNode i p k nm lf o ch)) →
  ∀ n, P n.
Proof.
  intros H. fix IH 1. intros [i p k nm lf o ch]. apply H.
  induction ch as [|c ch IHch]; constructor; [apply IH|apply IHch].
Qed.

Lemma elem_of_concat {A} (x : A) (ls : list (list A)) :
  x ∈ concat ls ↔ ∃ l, l ∈ ls ∧ x ∈ l.
Proof.
  induction ls as [|l' ls IH]; simpl.
  - split; [by inversion 1|]. intros (l & Hl & _). by inversion Hl.
  - rewrite elem_of_app, IH. split.
    + intros [?|(l & ? & ?)]; [exists l'|exists l]; split; try done;
        [left|by right].
    + intros (l & Hl & ?). apply elem_of_cons in Hl as [->|?]; [by left|].
      right. by exists l.
Qed.

Lemma NoDup_concat_part {A} (ls : list (list A)) l :
  NoDup (concat ls) → l ∈ ls → NoDup l.
Proof.
  induction ls as [|l' ls IH]; simpl; [by inversion 2|].
  rewrite NoDup_app, elem_of_cons. intros (? & _ & ?) [->|?]; auto.
Qed.

Lemma NoDup_concat_apart {A} (ls : list (list A)) (j k : nat) a b x :
  NoDup (concat ls) → ls !! j = Some a → ls !! k = Some b →
  x ∈ a → x ∈ b → j = k.
Proof.
  revert j k. induction ls as [|l ls IH]; intros j k; simpl; [done|].
  rewrite NoDup_app. intros (_ & Hsep & Hnd) Hj Hk Ha Hb.
  destruct j as [|j], k as [|k]; simpl in *; simplify_eq; try done.
  - destruct (Hsep x Ha). apply elem_of_concat. exists b.
    split; [by eapply list_elem_of_lookup_2|done].
  - destruct (Hsep x Hb). apply elem_of_concat. exists a.
    split; [by eapply list_elem_of_lookup_2|done].
  - f_equal. eauto.
Qed.

Lemma nodeIds_unfold n : nodeIds n = id n :: treeIds (children n).
Proof. by destruct n. Qed.

Lemma groupAt_ids path : ∀ nodes g x,
  groupAt path nodes = Some g → x ∈ id <$> g → x ∈ treeIds nodes.
Proof.
  induction path as [|i path IH]; intros nodes g x; simpl.
  - intros [= <-]. rewrite list_elem_of_fmap. intros (n & -> & Hn).
    apply elem_of_concat. exists (nodeIds n). split.
    + apply list_elem_of_fmap. by exists n.
    + rewrite nodeIds_unfold. left.
  - destruct (nodes !! i) as [n|] eqn:Hi; [|done]. intros Hg Hx.
    apply elem_of_concat. exists (nodeIds n). split.
    + apply list_elem_of_fmap. exists n. split; [done|].
      by eapply list_elem_of_lookup_2.
    + rewrite nodeIds_unfold. right. eauto.
Qed.

(** With pairwise distinct ids, an id occurs in one sibling list only. *)
Lemma unique_group path : ∀ nodes path' g g' x,
  NoDup (treeIds nodes) →
  groupAt path nodes = Some g → groupAt path' nodes = Some g' →
  x ∈ id <$> g → x ∈ id <$> g' → path = path'.
Proof.
  assert (Htop : ∀ nodes j q g' x,
    NoDup (treeIds nodes) → groupAt (j :: q) nodes = Some g' →
    x ∈ id <$> nodes → x ∈ id <$> g' → False).
  { intros nodes j q g' x Hnd Hg' Hx Hx'. simpl in Hg'.
    destruct (nodes !! j) as [n|] eqn:Hj; [|done].
    apply list_elem_of_fmap in Hx as (m & -> & Hm).
    apply list_elem_of_lookup in Hm as [k Hk].
    assert (Hin : id m ∈ treeIds (children n)) by by eapply groupAt_ids.
    assert (k = j) as ->.
    { apply (NoDup_concat_apart (nodeIds <$> nodes) k j
               (nodeIds m) (nodeIds n) (id m) Hnd).
      - by rewrite list_lookup_fmap, Hk.
      - by rewrite list_lookup_fmap, Hj.
      - rewrite nodeIds_unfold. left.
      - rewrite nodeIds_unfold. by right. }
    simplify_eq.
    assert (Hn : NoDup (nodeIds n)).
    { apply (NoDup_concat_part (nodeIds <$> nodes)); [done|].
      apply list_elem_of_fmap. exists n. split; [done|].
      by eapply list_elem_of_lookup_2. }
    rewrite nodeIds_unfold in Hn. by inversion Hn. }
  induction path as [|i path IH]; intros nodes [|j q] g g' x Hnd Hg Hg' Hx Hx'.
  - done.
  - simpl in Hg. simplify_eq. destruct (Htop _ _ _ _ _ Hnd Hg' Hx Hx').
  - simpl in Hg'. simplify_eq. destruct (Htop _ _ _ _ _ Hnd Hg Hx' Hx).
  - simpl in Hg, Hg'.
    destruct (nodes !! i) as [n|] eqn:Hi; [|done].
    destruct (nodes !! j) as [m|] eqn:Hj; [|done].
    assert (i = j) as ->.
    { apply (NoDup_concat_apart (nodeIds <$> nodes) i j
               (nodeIds n) (nodeIds m) x Hnd).
      - by rewrite list_lookup_fmap, Hi.
      - by rewrite list_lookup_fmap, Hj.
      - rewrite nodeIds_unfold. right. by eapply groupAt_ids.
      - rewrite nodeIds_unfold. right. by eapply groupAt_ids. }
    simplify_eq. f_equal. eapply (IH (children n)); eauto.
    assert (Hn : NoDup (nodeIds n)).
    { apply (NoDup_concat_part (nodeIds <$> nodes)); [done|].
      apply list_elem_of_fmap. exists n. split; [done|].
      by eapply list_elem_of_lookup_2. }
    rewrite nodeIds_unfold in Hn. by inversion Hn.
Qed.

Lemma distinct_ids_clearAbove s t path : ∀ nodes g,
  NoDup (treeIds nodes) → groupAt path nodes = Some g → s ∈ id <$> g →
  clearAbove s t path nodes.
Proof.
  induction path as [|i path IH]; intros nodes g Hnd Hg Hs; [done|].
  split.
  - intros [Hs' _].
    by pose proof (unique_group [] nodes (i :: path) nodes g s Hnd eq_refl Hg Hs' Hs).
  - simpl in Hg. destruct (nodes !! i) as [n|] eqn:Hi; [|done].
    apply (IH _ g); [|done..].
    assert (Hn : NoDup (nodeIds n)).
    { apply (NoDup_concat_part (nodeIds <$> nodes)); [done|].
      apply list_elem_of_fmap. exists n. split; [done|].
      by eapply list_elem_of_lookup_2. }
    rewrite nodeIds_unfold in Hn. by inversion Hn.
Qed.

Section TreeFacts.
Variables (s t : jsstring) (position : DropPosition).

Abbreviation reorderST := (reorderTreeLocally s t position).

(** Below sibling lists that do not hold both ids, the walk reaches
    every sibling list and treats it as it treats the root list. *)
Lemma groupAt_reorder path : ∀ nodes g,
  groupAt path nodes = Some g → clearAbove s t path nodes →
  groupAt path (reorderST nodes) = Some (reorderST g).
Proof.
  induction path as [|i path IH]; intros nodes g; simpl.
  - by intros [= ->].
  - destruct (nodes !! i) as [n|] eqn:Hi; [|done].
    intros Hg [Hno Hclear].
    rewrite (reorder_unfold s t position nodes), decide_False by done.
    rewrite list_lookup_fmap, Hi. simpl. by apply IH.
Qed.

(** Where no sibling list holds both ids the walk changes nothing. *)
Lemma reorder_nothing_to_do nodes :
  (∀ path g, groupAt path nodes = Some g → ¬ holdsBoth s t g) →
  reorderST nodes = nodes.
Proof.
  assert (Hnode : ∀ n,
    (∀ path g, groupAt path (children n) = Some g → ¬ holdsBoth s t g) →
    reorderST (children n) = children n).
  { induction n as [i p k nm lf o ch IH] using SectionNode_nested_ind.
    cbn [children]. intros Hch.
    rewrite reorder_unfold, decide_False by exact (Hch [] ch eq_refl).
    rewrite <- (list_fmap_id ch) at 2. apply list_fmap_ext.
    intros j n Hj. simpl.
    rewrite Forall_lookup in IH. rewrite (IH j n Hj).
    - apply with_children_same.
    - intros path g Hg. apply (Hch (j :: path)). simpl. by rewrite Hj. }
  intros H.
  apply (Hnode (mkNode [] None [] [] false 0 nodes)). exact H.
Qed.
End TreeFacts.

(** ** What the edit keeps *)

Lemma splice_insert_perm {A} (l : list A) (start : Z) (items : list A) :
  fst (splice l start 0 items) ≡ₚ items ++ l.
Proof.
  unfold splice. cbn [fst].
  set (a := if start <? 0 then _ else _).
  assert (Ha : 0 ≤ a ≤ Z.of_nat (length l)).
  { subst a. destruct (start <? 0) eqn:E; lia. }
  replace (Z.min (Z.max 0 0) (Z.of_nat (length l) - a)) with 0 by lia.
  rewrite Z.add_0_r.
  rewrite (Permutation_app_comm (take _ l)), <- app_assoc.
  apply Permutation_app_head.
  by rewrite Permutation_app_comm, take_drop.
Qed.

Lemma moveWithin_perm s position (lst : list SectionNode) (to : Z) :
  s ∈ id <$> lst →
  moveWithin position lst (findIndex (has_id s) lst) to ≡ₚ lst.
Proof.
  intros Hs. apply findIndex_has_id, findIndex_found in Hs
    as (l1 & x & l2 & -> & Hl1 & Hx & ->).
  unfold moveWithin. rewrite splice_remove_one.
  change (option_list (head [x])) with [x].
  rewrite splice_insert_perm. simpl. by rewrite Permutation_middle.
Qed.

Lemma removeSlot_found s (lst : list SectionNode) :
  s ∈ id <$> lst →
  ∃ m rest, removeSlot s lst = Some (m, rest) ∧ id m = s ∧ lst ≡ₚ m :: rest.
Proof.
  intros Hs. apply findIndex_has_id, findIndex_found in Hs
    as (l1 & x & l2 & -> & Hl1 & Hx & _).
  exists x, (l1 ++ l2). rewrite removeSlot_first by done.
  split; [done|]. split; [by apply has_id_true|].
  by rewrite Permutation_middle.
Qed.

Lemma removeSlot_keeps s t (lst : list SectionNode) m rest :
  removeSlot s lst = Some (m, rest) → s ≠ t → t ∈ id <$> lst → t ∈ id <$> rest.
Proof.
  revert m rest. induction lst as [|n lst IH]; intros m rest; simpl; [done|].
  destruct (has_id s n) eqn:Hn.
  - intros [= <- <-] Hst. apply has_id_true in Hn.
    rewrite elem_of_cons. intros [?|?]; [congruence|done].
  - destruct (removeSlot s lst) as [[m' rest']|] eqn:E; [|done].
    simpl. intros [= <- <-] Hst.
    rewrite !elem_of_cons. intros [->|?]; [by left|right; eauto].
Qed.

Lemma reinsert_found position t m (rest : list SectionNode) :
  t ∈ id <$> rest →
  ∃ pre tgt post,
    id tgt = t ∧ rest = pre ++ tgt :: post ∧ (t ∉ id <$> pre) ∧
    reinsert position t m rest =
    pre ++ match position with before => [m; tgt] | after => [tgt; m] end ++ post.
Proof.
  intros Ht. apply findIndex_has_id, findIndex_found in Ht
    as (pre & tgt & post & -> & Hpre & Htgt & _).
  exists pre, tgt, post. rewrite reinsert_first by done.
  repeat split; [by apply has_id_true|by apply absent_iff].
Qed.

(** ** Request helpers *)

Section ApiFacts.
Variable net : Network.

Ltac api_run :=
  intros w; unfold fetchSections, importSectionsRequest, moveSectionRequest,
    renameSectionRequest, createSectionRequest, deleteSectionRequest,
    fetch, jsonOf, detail, settle, throw, mbind, M_bind, mret, M_ret, newError, orElse;
  cbn [history ui];
  destruct (net (history w ++ [Http _])) as [[ok [data|e]]|e];
    cbn [res_ok res_json negb fst snd];
    [destruct ok; cbn [negb];
      [|destruct (detailOf data) as [d|e] eqn:Hdetail; cbn [negb]]| |];
  repeat split; intros; unfold fst, snd, res_ok, res_json in *;
  simplify_eq; eauto;
  repeat match goal with
         | H : detailOf ?x = _, H' : detailOf ?x = _ |- _ => rewrite H in H'
         end;
  simplify_eq; try done;
  try match goal with H : truthy _ = _ |- _ => rewrite H end;
  unfold default, Datatypes.id; cbn [from_option];
  repeat match goal with H : ToString _ = _ |- _ => rewrite H end;
  try done;
  by match goal with |- context [ToString ?v] => destruct (ToString v) end.

Lemma fetchSections_honours :
  honoursDetail net (fetchSections net) GET_sections
    (js "Failed to load sections") (fun data => data).
Proof. api_run. Qed.

Lemma importSectionsRequest_honours file :
  honoursDetail net (importSectionsRequest net file)
    (POST_sections_import file) (js "Import failed") (fun data => data).
Proof. api_run. Qed.

Lemma moveSectionRequest_honours sectionId targetSectionId position :
  honoursDetail net (moveSectionRequest net sectionId targetSectionId position)
    (PUT_sections_move sectionId targetSectionId position) (js "Move failed")
    (fun _ => ()).
Proof. api_run. Qed.

Lemma renameSectionRequest_honours sectionId name :
  honoursDetail net (renameSectionRequest net sectionId name)
    (PATCH_section sectionId name) (js "Rename failed") (fun _ => ()).
Proof. api_run. Qed.

Lemma createSectionRequest_honours name parentId anchorSectionId anchorPosition :
  honoursDetail net
    (createSectionRequest net name parentId anchorSectionId anchorPosition)
    (POST_sections name parentId anchorSectionId anchorPosition)
    (js "Create failed") (fun data => data).
Proof. api_run. Qed.

Lemma deleteSectionRequest_honours sectionId strategy :
  honoursDetail net (deleteSectionRequest net sectionId strategy)
    (DELETE_section sectionId strategy) (js "Delete failed") (fun _ => ()).
Proof. api_run. Qed.
End ApiFacts.

(** ** Handlers *)

Ltac run_handler :=
  unfold tryFinally, tryCatch, noop, setTree, setError, setMoving,
    setRenamingId, setDeletingId, setActiveId, setOverId, setUi;
  unfold mbind, M_bind, mret, M_ret; cbn [ui history fst snd].

Section HandlerFacts.
Variables (net : Network) (asSectionNodes : json -> list SectionNode).

Lemma honours_run {A} {result : json -> A} (call : M World A) req fallback w :
  honoursDetail net call req fallback result →
  call w = (fst (call w), mkWorld (ui w) (history w ++ [Http req])).
Proof. intros H. destruct (H w) as [<- _]. by destruct (call w). Qed.

(** A helper throws on every answer that is not ok. *)
Lemma honours_failure {A} {result : json -> A} (call : M World A) req fallback w res :
  honoursDetail net call req fallback result →
  net (history w ++ [Http req]) = Normal res →
  res_ok res = false →
  ∃ e, fst (call w) = Throw e.
Proof.
  intros H Hnet Hok. destruct (H w) as (_ & _ & Hres).
  destruct (Hres res Hnet) as (Hparse & _ & Hsaid & Hthrows & Hblank & Hnull).
  destruct (res_json res) as [data|e] eqn:Hjson; [|eauto].
  destruct (detailOf data) as [d|e] eqn:Hdetail; [|eauto].
  destruct (truthy d) eqn:Htruthy; [|eauto].
  destruct d as [v|]; [|done].
  destruct (ToString v) as [message|e] eqn:Htext; eauto.
Qed.

(** A silent reload sends one [GET], never throws, and either
    installs the tree it received or records the failure. *)
Lemma loadSections_silent w :
  loadSections net asSectionNodes true w =
  (Normal (),
   mkWorld
     match fst (fetchSections net w) with
     | Normal data => withTree (ui w) (asSectionNodes data)
     | Throw e => withError (ui w) (messageOr e (js "Unknown error"))
     end
     (history w ++ [Http GET_sections])).
Proof.
  unfold loadSections, tryFinally, tryCatch, noop, setTree, setError, setUi.
  unfold mbind, M_bind, mret, M_ret. cbn [negb].
  rewrite (honours_run _ _ _ w (fetchSections_honours net)).
  by destruct (fst (fetchSections net w)).
Qed.

(** The go-ahead branch of [moveSectionByAnchor], step by step. *)
Lemma moveSectionByAnchor_proceeds w s t dragged target :
  s ≠ t →
  getNodeMeta (tree (ui w)) !! s = Some dragged →
  getNodeMeta (tree (ui w)) !! t = Some target →
  parentId dragged = parentId target →
  let position :=
    if meta_order dragged <? meta_order target then after else before in
  let optimistic :=
    mkWorld (withTree (withError (withMoving (ui w) true) [])
               (reorderTreeLocally s t position (tree (ui w))))
      (history w) in
  let settled a := withOverId (withActiveId (withMoving a false) None) None in
  moveSectionByAnchor net asSectionNodes s t w =
  match fst (moveSectionRequest net s t position optimistic) with
  | Throw e =>
      (Normal (),
       mkWorld
         (settled (withError (withTree (ui optimistic) (tree (ui w)))
                     (messageOr e (js "Move failed"))))
         (history w ++ [Http (PUT_sections_move s t position)]))
  | Normal _ =>
      let requested :=
        mkWorld (ui optimistic)
          (history w ++ [Http (PUT_sections_move s t position)]) in
      (Normal (),
       mkWorld
         (settled
            match fst (fetchSections net requested) with
            | Normal data => withTree (ui optimistic) (asSectionNodes data)
            | Throw e => withError (ui optimistic) (messageOr e (js "Unknown error"))
            end)
         (history w ++ [Http (PUT_sections_move s t position); Http GET_sections]))
  end.
Proof.
  intros Hst Hs Ht Hp position optimistic settled.
  unfold moveSectionByAnchor.
  rewrite decide_False, Hs, Ht, decide_False by (done || by intros []).
  fold position. run_handler.
  change (tree (withError (withMoving (ui w) true) [])) with (tree (ui w)).
  fold optimistic.
  rewrite (honours_run _ _ _ optimistic
             (moveSectionRequest_honours net s t position)).
  destruct (fst (moveSectionRequest net s t position optimistic)) as [[]|e].
  - cbn [history ui optimistic]. rewrite loadSections_silent.
    cbn [ui history]. by rewrite <- app_assoc.
  - done.
Qed.

(** A request followed by a silent reload, inside
    [try]/[catch]/[finally]: the request is sent, the reload follows
    when it succeeded, and nothing escapes. *)
Lemma renameSection_history w sectionId name :
  ∃ a later,
    renameSection net asSectionNodes sectionId name w =
    (Normal (), mkWorld a (history w ++ Http (PATCH_section sectionId name) :: later))
    ∧ (later = [] ∨ later = [Http GET_sections]).
Proof.
  unfold renameSection. run_handler.
  match goal with |- context [renameSectionRequest net _ _ ?w1] =>
    rewrite (honours_run _ _ _ w1 (renameSectionRequest_honours net sectionId name));
    destruct (fst (renameSectionRequest net sectionId name w1)) as [[]|e]
  end.
  - cbn [ui history]. rewrite loadSections_silent. cbn [ui history].
    rewrite <- app_assoc. eauto.
  - cbn [ui history]. eauto.
Qed.

Lemma delete_then_reload_history w sectionId strategy :
  ∃ a later,
    (setDeletingId (Some sectionId);;
     setError [];;
     tryFinally
       (tryCatch
          (deleteSectionRequest net sectionId strategy;;
           loadSections net asSectionNodes true)
          (fun e => setError (messageOr e (js "Delete failed"))))
       (setDeletingId None)) w =
    (Normal (),
     mkWorld a (history w ++ Http (DELETE_section sectionId strategy) :: later))
    ∧ (later = [] ∨ later = [Http GET_sections]).
Proof.
  run_handler.
  match goal with |- context [deleteSectionRequest net _ _ ?w1] =>
    rewrite (honours_run _ _ _ w1
               (deleteSectionRequest_honours net sectionId strategy));
    destruct (fst (deleteSectionRequest net sectionId strategy w1)) as [[]|e]
  end.
  - cbn [ui history]. rewrite loadSections_silent. cbn [ui history].
    rewrite <- app_assoc. eauto.
  - cbn [ui history]. eauto.
Qed.
End HandlerFacts.

(** ** The node index *)

Lemma subnodes_unfold n : subnodes n = n :: treeNodes (children n).
Proof. by destruct n. Qed.

Lemma metaNode_unfold n meta :
  metaNode n meta =
  metaWalk (children n) (<[id n := mkMeta (parent_id n) (order n)]> meta).
Proof. by destruct n as [i p k nm lf o [|c ch]]. Qed.

(** Every entry of the index is either inherited or describes a node of
    the tree that carries that id. *)
Lemma metaWalk_sound lst : ∀ (meta : gmap jsstring NodeMeta) s m,
  metaWalk lst meta !! s = Some m →
  meta !! s = Some m ∨
  ∃ x, x ∈ treeNodes lst ∧ id x = s ∧ m = mkMeta (parent_id x) (order x).
Proof.
  assert (Hlist : ∀ l, Forall (fun n => ∀ (meta : gmap jsstring NodeMeta) s m,
      metaNode n meta !! s = Some m →
      meta !! s = Some m ∨
      ∃ x, x ∈ subnodes n ∧ id x = s ∧ m = mkMeta (parent_id x) (order x)) l →
    ∀ (meta : gmap jsstring NodeMeta) s m,
      metaWalk l meta !! s = Some m →
      meta !! s = Some m ∨
      ∃ x, x ∈ treeNodes l ∧ id x = s ∧ m = mkMeta (parent_id x) (order x)).
  { induction 1 as [|n l Hn _ IH]; intros meta s m; [by left|].
    unfold metaWalk, treeNodes. simpl. intros H.
    apply IH in H as [H|(x & Hx & ?)].
    - apply Hn in H as [H|(x & Hx & ?)]; [by left|].
      right. exists x. split; [|done]. apply elem_of_app. by left.
    - right. exists x. split; [|done]. apply elem_of_app. by right. }
  apply Hlist, Forall_forall. intros n _. clear lst.
  induction n as [i p k nm lf o ch IH] using SectionNode_nested_ind.
  intros meta s m. rewrite metaNode_unfold, subnodes_unfold. cbn [children id parent_id order].
  intros H. apply (Hlist _ IH) in H as [H|(x & Hx & ?)].
  - destruct (decide (i = s)) as [->|Hne].
    + rewrite lookup_insert_eq in H. simplify_eq. right.
      eexists. split; [left|done].
    + rewrite lookup_insert_ne in H by done. by left.
  - right. exists x. split; [by right|done].
Qed.

Lemma getNodeMeta_sound nodes s m :
  getNodeMeta nodes !! s = Some m →
  ∃ x, x ∈ treeNodes nodes ∧ id x = s ∧ parent_id x = parentId m ∧
       order x = meta_order m.
Proof.
  intros H. apply metaWalk_sound in H as [H|(x & ? & ? & ->)].
  - by rewrite lookup_empty in H.
  - by exists x.
Qed.

(** Every id of the tree has an entry. *)
Lemma metaWalk_complete lst : ∀ (meta : gmap jsstring NodeMeta) s,
  is_Some (meta !! s) ∨ s ∈ treeIds lst → is_Some (metaWalk lst meta !! s).
Proof.
  assert (Hlist : ∀ l, Forall (fun n => ∀ (meta : gmap jsstring NodeMeta) s,
      is_Some (meta !! s) ∨ s ∈ nodeIds n → is_Some (metaNode n meta !! s)) l →
    ∀ (meta : gmap jsstring NodeMeta) s,
      is_Some (meta !! s) ∨ s ∈ treeIds l → is_Some (metaWalk l meta !! s)).
  { induction 1 as [|n l Hn _ IH]; intros meta s.
    - intros [?|H]; [done|by inversion H].
    - unfold metaWalk, treeIds. simpl. rewrite elem_of_app.
      intros [?|[?|?]]; apply IH; auto. }
  apply Hlist, Forall_forall. intros n _. clear lst.
  induction n as [i p k nm lf o ch IH] using SectionNode_nested_ind.
  intros meta s. rewrite metaNode_unfold, nodeIds_unfold.
  cbn [children id parent_id order]. rewrite elem_of_cons.
  intros H. apply (Hlist _ IH).
  destruct (decide (i = s)) as [->|Hne].
  - left. by rewrite lookup_insert_eq.
  - rewrite lookup_insert_ne by done.
    destruct H as [?|[?|?]]; [by left|congruence|by right].
Qed.

Lemma getNodeMeta_complete nodes s :
  s ∈ treeIds nodes → is_Some (getNodeMeta nodes !! s).
Proof. intros. apply metaWalk_complete. by right. Qed.

(** ** The node index, exactly *)

Lemma treeIds_cons n lst : treeIds (n :: lst) = nodeIds n ++ treeIds lst.
Proof. done. Qed.

Lemma treeNodes_cons n lst : treeNodes (n :: lst) = subnodes n ++ treeNodes lst.
Proof. done. Qed.

Lemma treeIds_treeNodes lst : treeIds lst = id <$> treeNodes lst.
Proof.
  assert (Hlist : ∀ l, Forall (fun n => nodeIds n = id <$> subnodes n) l →
                       treeIds l = id <$> treeNodes l).
  { induction 1 as [|n l Hn _ IH]; [done|].
    by rewrite treeIds_cons, treeNodes_cons, fmap_app, Hn, IH. }
  apply Hlist, Forall_forall. intros n _. clear lst.
  induction n as [i p k nm lf o ch IH] using SectionNode_nested_ind.
  rewrite nodeIds_unfold, subnodes_unfold, fmap_cons. cbn [children id].
  f_equal. by apply Hlist.
Qed.

Lemma lastWith_app s ns ns' inherited :
  lastWith s (ns ++ ns') inherited = lastWith s ns' (lastWith s ns inherited).
Proof.
  unfold lastWith. rewrite filter_app, last_app.
  by destruct (last (filter _ ns')).
Qed.

Lemma metaWalk_last_wins s lst : ∀ meta : gmap jsstring NodeMeta,
  metaWalk lst meta !! s = lastWith s (treeNodes lst) (meta !! s).
Proof.
  assert (Hlist : ∀ l,
    Forall (fun n => ∀ meta : gmap jsstring NodeMeta,
              metaNode n meta !! s = lastWith s (subnodes n) (meta !! s)) l →
    ∀ meta : gmap jsstring NodeMeta,
      metaWalk l meta !! s = lastWith s (treeNodes l) (meta !! s)).
  { induction 1 as [|n l Hn _ IH]; intros meta; [done|].
    rewrite treeNodes_cons, lastWith_app, <- Hn. apply IH. }
  apply Hlist, Forall_forall. intros n _. clear lst.
  induction n as [i p k nm lf o ch IH] using SectionNode_nested_ind.
  intros meta. rewrite metaNode_unfold, subnodes_unfold.
  cbn [children id parent_id order]. rewrite (Hlist _ IH).
  change (mkNode i p k nm lf o ch :: treeNodes ch)
    with ([mkNode i p k nm lf o ch] ++ treeNodes ch).
  rewrite lastWith_app. f_equal.
  unfold lastWith. rewrite filter_cons. cbn [id].
  case_decide as Hi.
  - subst. by rewrite lookup_insert_eq.
  - by rewrite lookup_insert_ne.
Qed.

Lemma getNodeMeta_lookup nodes s :
  getNodeMeta nodes !! s = lastWith s (treeNodes nodes) None.
Proof. unfold getNodeMeta. by rewrite metaWalk_last_wins, lookup_empty. Qed.

Lemma getNodeMeta_absent nodes s :
  getNodeMeta nodes !! s = None ↔ s ∉ treeIds nodes.
Proof.
  rewrite getNodeMeta_lookup, treeIds_treeNodes. unfold lastWith.
  destruct (last (filter _ _)) as [x|] eqn:E.
  - split; [done|]. intros Hs. destruct Hs.
    apply last_Some_elem_of, list_elem_of_filter in E as [<- Hx].
    by apply list_elem_of_fmap_2.
  - split; [|done]. intros _ Hs.
    apply last_None in E.
    apply list_elem_of_fmap in Hs as (x & -> & Hx).
    assert (Hin : x ∈ filter (fun y => id y = id x) (treeNodes nodes))
      by by apply list_elem_of_filter.
    rewrite E in Hin. by inversion Hin.
Qed.

(** With distinct ids a node is the last, being the only, carrier of
    its id. *)
Lemma last_carrier_unique (lst : list SectionNode) n :
  NoDup (id <$> lst) → n ∈ lst →
  last (filter (fun y => id y = id n) lst) = Some n.
Proof.
  intros Hnd Hn.
  destruct (last (filter _ _)) as [x|] eqn:E.
  - apply last_Some_elem_of, list_elem_of_filter in E as [Hid Hx].
    apply list_elem_of_lookup in Hx as [a Ha], Hn as [b Hb].
    assert (a = b) as ->.
    { apply (NoDup_lookup _ a b (id n) Hnd);
        rewrite list_lookup_fmap; [by rewrite Ha; simpl; f_equal|by rewrite Hb]. }
    congruence.
  - apply last_None in E.
    assert (Hin : n ∈ filter (fun y => id y = id n) lst)
      by by apply list_elem_of_filter.
    rewrite E in Hin. by inversion Hin.
Qed.

(** * The claims *)

(** ** Moving a node within its sibling list *)

(** C1 (as the tree walk has it).  For every tree and every sibling list
    in it that holds both [sectionId] and [targetId], with
    [sectionId ≠ targetId], and that does not lie below another sibling
    list holding both, [reorderTreeLocally] returns that list edited in
    place and renumbered: [sectionId]'s node [m] is taken out of its
    slot, which leaves [rest], and is put back immediately before the
    target for ["before"] and immediately after it for ["after"].  The
    result is one expression in [m] and [rest], whichever of the two
    nodes came first, and it is a permutation of the input list. *)
Theorem reorder_edits_in_place s t position nodes path g :
  groupAt path nodes = Some g →
  holdsBoth s t g →
  s ≠ t →
  clearAbove s t path nodes →
  ∃ m rest pre tgt post,
    removeSlot s g = Some (m, rest) ∧ id m = s ∧ id tgt = t ∧
    rest = pre ++ tgt :: post ∧ (t ∉ id <$> pre) ∧
    editedInPlace s t position g =
      pre ++ match position with before => [m; tgt] | after => [tgt; m] end ++ post ∧
    groupAt path (reorderTreeLocally s t position nodes) =
      Some (normalizeLocalOrders (editedInPlace s t position g)) ∧
    editedInPlace s t position g ≡ₚ g.
Proof.
  intros Hg Hboth Hst Hclear.
  destruct (removeSlot_found s g (proj1 Hboth)) as (m & rest & Hrm & Hm & Hperm).
  pose proof (removeSlot_keeps s t g m rest Hrm Hst (proj2 Hboth)) as Ht.
  destruct (reinsert_found position t m rest Ht)
    as (pre & tgt & post & Htgt & Hrest & Hpre & Hins).
  assert (Hedit : editedInPlace s t position g = reinsert position t m rest).
  { unfold editedInPlace. by rewrite Hrm. }
  exists m, rest, pre, tgt, post.
  rewrite Hedit. repeat split; try done.
  - rewrite (groupAt_reorder s t position path nodes g Hg Hclear).
    rewrite reorder_unfold, decide_True by done.
    by rewrite moveWithin_editedInPlace, Hedit.
  - rewrite Hins, Hperm, Hrest. destruct position; simpl.
    + by rewrite <- Permutation_middle.
    + rewrite <- (Permutation_middle pre (m :: post) tgt).
      rewrite <- (Permutation_middle pre post m).
      rewrite <- (Permutation_middle pre post tgt).
      apply Permutation_swap.
Qed.

Ltac by_evaluation :=
  match goal with
  | |- ?P => refine (@bool_decide_unpack P _ _); vm_compute; exact I
  end.

Lemma reorder_edits_in_place_witness :
  (groupAt [0%nat] underP = Some ABC ∧
   holdsBoth (js "A") (js "C") ABC ∧
   js "A" ≠ js "C" ∧
   clearAbove (js "A") (js "C") [0%nat] underP) ∧
  ∃ m rest pre tgt post,
    removeSlot (js "A") ABC = Some (m, rest) ∧ id m = js "A" ∧ id tgt = js "C" ∧
    rest = pre ++ tgt :: post ∧ (js "C" ∉ id <$> pre) ∧
    editedInPlace (js "A") (js "C") after ABC = pre ++ [tgt; m] ++ post ∧
    groupAt [0%nat] (reorderTreeLocally (js "A") (js "C") after underP) =
      Some (normalizeLocalOrders (editedInPlace (js "A") (js "C") after ABC)) ∧
    editedInPlace (js "A") (js "C") after ABC ≡ₚ ABC.
Proof.
  assert (H1 : groupAt [0%nat] underP = Some ABC) by reflexivity.
  assert (H2 : holdsBoth (js "A") (js "C") ABC) by by_evaluation.
  assert (H3 : js "A" ≠ js "C") by by_evaluation.
  assert (H4 : clearAbove (js "A") (js "C") [0%nat] underP).
  { split; [by_evaluation|exact I]. }
  split; [done|].
  exact (reorder_edits_in_place (js "A") (js "C") after underP [0%nat] ABC H1 H2 H3 H4).
Defined.

(** C1 as stated fails on a sibling list that lies below another list
    holding both ids: [innerPair] holds [a] and [b], the walk stops at
    the root list, which holds them too, and [innerPair] comes back as
    it was; the edited list occurs nowhere in the result. *)
Lemma shadowed_list_not_edited :
  groupAt [0%nat] shadowed = Some innerPair ∧
  holdsBoth (js "a") (js "b") innerPair ∧
  js "a" ≠ js "b" ∧
  reorderTreeLocally (js "a") (js "b") after shadowed =
    [with_order (leaf "b" None 2) 1; with_order (branch "a" None 1 innerPair) 2] ∧
  normalizeLocalOrders (editedInPlace (js "a") (js "b") after innerPair) ≠ innerPair ∧
  ∀ path,
    groupAt path (reorderTreeLocally (js "a") (js "b") after shadowed) ≠
    Some (normalizeLocalOrders (editedInPlace (js "a") (js "b") after innerPair)).
Proof.
  split; [reflexivity|]. split; [by_evaluation|]. split; [by_evaluation|].
  split; [by vm_compute|]. split; [by vm_compute|].
  intros path.
  change (reorderTreeLocally (js "a") (js "b") after shadowed)
    with [with_order (leaf "b" None 2) 1; with_order (branch "a" None 1 innerPair) 2].
  destruct path as [|[|[|i]] [|[|[|j]] [|k path]]]; vm_compute; congruence.
Qed.

(** ** Renumbering a sibling list *)

(** C2.  For every sibling list, [normalizeLocalOrders] returns the same
    nodes in the same sequence, each with [order] set to its 1-based
    position; so the sibling list that [reorderTreeLocally] edits comes
    back with the order values [1..N], ascending, without gap or
    duplicate, [N] being the number of siblings. *)
Theorem normalizeLocalOrders_renumbers :
  (∀ lst,
     length (normalizeLocalOrders lst) = length lst ∧
     Forall2 sameButOrder lst (normalizeLocalOrders lst) ∧
     (∀ (k : nat) n, normalizeLocalOrders lst !! k = Some n →
                     order n = Z.of_nat k + 1) ∧
     order <$> normalizeLocalOrders lst = oneTo (length lst)) ∧
  (∀ s t position nodes path g,
     groupAt path nodes = Some g →
     clearAbove s t path nodes →
     holdsBoth s t g →
     ∃ g',
       groupAt path (reorderTreeLocally s t position nodes) = Some g' ∧
       length g' = length g ∧
       order <$> g' = oneTo (length g)).
Proof.
  split.
  - intros lst. repeat split.
    + apply normalizeLocalOrders_length.
    + apply normalizeLocalOrders_rows.
    + intros k n. rewrite normalizeLocalOrders_lookup.
      destruct (lst !! k); simpl; [|done]. by intros [= <-].
    + apply normalizeLocalOrders_orders.
  - intros s t position nodes path g Hg Hclear Hboth.
    eexists. split.
    + rewrite (groupAt_reorder s t position path nodes g Hg Hclear).
      by rewrite reorder_unfold, decide_True by done.
    + pose proof (Permutation_length
        (moveWithin_perm s position g (findIndex (has_id t) g) (proj1 Hboth))) as Hlen.
      by rewrite normalizeLocalOrders_length, normalizeLocalOrders_orders, Hlen.
Qed.

Lemma normalizeLocalOrders_renumbers_witness :
  (groupAt [0%nat] underP = Some ABC ∧
   clearAbove (js "C") (js "A") [0%nat] underP ∧
   holdsBoth (js "C") (js "A") ABC) ∧
  ∃ g',
    groupAt [0%nat] (reorderTreeLocally (js "C") (js "A") before underP) = Some g' ∧
    length g' = length ABC ∧
    order <$> g' = oneTo (length ABC).
Proof.
  assert (H1 : groupAt [0%nat] underP = Some ABC) by reflexivity.
  assert (H2 : clearAbove (js "C") (js "A") [0%nat] underP).
  { split; [by_evaluation|exact I]. }
  assert (H3 : holdsBoth (js "C") (js "A") ABC) by by_evaluation.
  split; [done|].
  exact (proj2 normalizeLocalOrders_renumbers
           (js "C") (js "A") before underP [0%nat] ABC H1 H2 H3).
Defined.

(** ** Moves that are refused *)

(** The guard of [moveSectionByAnchor] on the entries of the node index. *)
Lemma moveSectionByAnchor_cross_parent net asSectionNodes w s t dragged target :
  getNodeMeta (tree (ui w)) !! s = Some dragged →
  getNodeMeta (tree (ui w)) !! t = Some target →
  parentId dragged ≠ parentId target →
  moveSectionByAnchor net asSectionNodes s t w =
  (Normal (),
   mkWorld (withError (ui w) (js "Cross-parent moves are not allowed."))
     (history w)).
Proof.
  intros Hs Ht Hp. unfold moveSectionByAnchor.
  rewrite decide_False; [|intros ->; congruence].
  by rewrite Hs, Ht, decide_True.
Qed.

(** The guard looks at the last node in traversal order that carries
    each id. *)
Lemma moveSectionByAnchor_last_carriers net asSectionNodes w s t x y :
  last (filter (fun n => id n = s) (treeNodes (tree (ui w)))) = Some x →
  last (filter (fun n => id n = t) (treeNodes (tree (ui w)))) = Some y →
  parent_id x ≠ parent_id y →
  moveSectionByAnchor net asSectionNodes s t w =
  (Normal (),
   mkWorld (withError (ui w) (js "Cross-parent moves are not allowed."))
     (history w)).
Proof.
  intros Hx Hy Hp.
  apply (moveSectionByAnchor_cross_parent _ _ _ _ _
           (mkMeta (parent_id x) (order x)) (mkMeta (parent_id y) (order y)));
    [| |done]; rewrite getNodeMeta_lookup; unfold lastWith.
  - by rewrite Hx.
  - by rewrite Hy.
Qed.

(** C3 (as the guard has it).  [moveSectionByAnchor] compares the
    [parent_id] of the last node in traversal order that carries
    [sectionId] with that of the last node that carries [targetId]:
    when these differ it sends nothing and leaves the state as it was
    but for the error message.  In a tree with pairwise distinct ids
    this holds of every pair of existing nodes whose [parent_id]
    differ.  And where no sibling list holds both ids,
    [reorderTreeLocally] returns its input. *)
Theorem cross_parent_move_rejected :
  (∀ net asSectionNodes w s t x y,
     last (filter (fun n => id n = s) (treeNodes (tree (ui w)))) = Some x →
     last (filter (fun n => id n = t) (treeNodes (tree (ui w)))) = Some y →
     parent_id x ≠ parent_id y →
     moveSectionByAnchor net asSectionNodes s t w =
     (Normal (),
      mkWorld (withError (ui w) (js "Cross-parent moves are not allowed."))
        (history w))) ∧
  (∀ net asSectionNodes w x y,
     NoDup (treeIds (tree (ui w))) →
     x ∈ treeNodes (tree (ui w)) →
     y ∈ treeNodes (tree (ui w)) →
     parent_id x ≠ parent_id y →
     moveSectionByAnchor net asSectionNodes (id x) (id y) w =
     (Normal (),
      mkWorld (withError (ui w) (js "Cross-parent moves are not allowed."))
        (history w))) ∧
  (∀ s t position nodes,
     (∀ path g, groupAt path nodes = Some g → ¬ holdsBoth s t g) →
     reorderTreeLocally s t position nodes = nodes).
Proof.
  split; [|split].
  - intros net asSectionNodes w s t x y.
    apply moveSectionByAnchor_last_carriers.
  - intros net asSectionNodes w x y Hnd Hx Hy Hp.
    rewrite treeIds_treeNodes in Hnd.
    apply (moveSectionByAnchor_last_carriers _ _ _ _ _ x y);
      [by apply last_carrier_unique..|done].
  - intros s t position nodes. apply reorder_nothing_to_do.
Qed.

Lemma cross_parent_move_rejected_witness :
  let a := leaf "a" (Some "P") 1 in
  let b := leaf "b" (Some "Q") 2 in
  let swapped :=
    [branch "P" None 1 [leaf "a" (Some "P") 1; leaf "b" (Some "P") 2];
     branch "Q" None 2 [leaf "b" (Some "Q") 1]] in
  let refused nodes :=
    (Normal (),
     mkWorld (withError (ui (idle nodes)) (js "Cross-parent moves are not allowed."))
       []) in
  ((last (filter (fun n => id n = js "a") (treeNodes swapped)) = Some a ∧
    last (filter (fun n => id n = js "b") (treeNodes swapped))
      = Some (leaf "b" (Some "Q") 1) ∧
    parent_id a ≠ parent_id (leaf "b" (Some "Q") 1)) ∧
   (NoDup (treeIds underP) ∧
    leaf "A" (Some "P") 1 ∈ treeNodes underP ∧
    branch "P" None 1 ABC ∈ treeNodes underP ∧
    parent_id (leaf "A" (Some "P") 1) ≠ parent_id (branch "P" None 1 ABC)) ∧
   (∀ path g, groupAt path underP = Some g → ¬ holdsBoth (js "A") (js "P") g)) ∧
  moveSectionByAnchor (always (Throw ThrownValue)) noTree (js "a") (js "b")
    (idle swapped) = refused swapped ∧
  moveSectionByAnchor (always (Throw ThrownValue)) noTree (js "A") (js "P")
    (idle underP) = refused underP ∧
  reorderTreeLocally (js "A") (js "P") after underP = underP.
Proof.
  intros a b swapped refused.
  assert (H1 : last (filter (fun n => id n = js "a") (treeNodes swapped)) = Some a)
    by (vm_compute; reflexivity).
  assert (H2 : last (filter (fun n => id n = js "b") (treeNodes swapped))
               = Some (leaf "b" (Some "Q") 1)) by (vm_compute; reflexivity).
  assert (H3 : parent_id a ≠ parent_id (leaf "b" (Some "Q") 1)) by by_evaluation.
  assert (H4 : NoDup (treeIds underP)) by by_evaluation.
  assert (H5 : leaf "A" (Some "P") 1 ∈ treeNodes underP).
  { apply list_elem_of_In. vm_compute. auto. }
  assert (H6 : branch "P" None 1 ABC ∈ treeNodes underP).
  { apply list_elem_of_In. vm_compute. auto. }
  assert (H7 : parent_id (leaf "A" (Some "P") 1) ≠ parent_id (branch "P" None 1 ABC))
    by by_evaluation.
  assert (H8 : ∀ path g, groupAt path underP = Some g →
                         ¬ holdsBoth (js "A") (js "P") g).
  { intros path g Hg.
    destruct path as [|[|i] [|[|[|[|j]]] [|k path]]];
      vm_compute in Hg; simplify_eq; by_evaluation. }
  split; [done|]. split; [|split].
  - exact (proj1 cross_parent_move_rejected (always (Throw ThrownValue)) noTree
             (idle swapped) (js "a") (js "b") _ _ H1 H2 H3).
  - exact (proj1 (proj2 cross_parent_move_rejected) (always (Throw ThrownValue)) noTree
             (idle underP) _ _ H4 H5 H6 H7).
  - exact (proj2 (proj2 cross_parent_move_rejected) (js "A") (js "P") after underP H8).
Defined.

(** C3 as stated fails where ids repeat.  In [twins] the node [a] under
    [P] and the node [b] under [Q] exist and differ in [parent_id], yet
    the index keeps the entries of the last carriers, both under [Q]:
    the guard passes, the move request is sent and no error is shown. *)
Lemma cross_parent_pair_moved :
  let x := leaf "a" (Some "P") 1 in
  let y := leaf "b" (Some "Q") 2 in
  let net := always (Normal (mkResponse true (Normal (JArray [])))) in
  let final := snd (moveSectionByAnchor net fromServer (id x) (id y) (idle twins)) in
  x ∈ treeNodes twins ∧
  y ∈ treeNodes twins ∧
  parent_id x ≠ parent_id y ∧
  history final =
    [Http (PUT_sections_move (js "a") (js "b") after); Http GET_sections] ∧
  error (ui final) = [] ∧
  tree (ui final) ≠ twins.
Proof.
  cbv zeta.
  split; [apply list_elem_of_In; vm_compute; auto 10|].
  split; [apply list_elem_of_In; vm_compute; auto 10|].
  split; [by_evaluation|].
  split; [by vm_compute|]. split; [by vm_compute|].
  vm_compute. congruence.
Qed.

(** C4.  [moveSectionByAnchor(sectionId, sectionId)] returns at once:
    nothing is sent and no state changes. *)
Theorem move_onto_itself_ignored net asSectionNodes sectionId w :
  moveSectionByAnchor net asSectionNodes sectionId sectionId w = (Normal (), w).
Proof. unfold moveSectionByAnchor. by rewrite decide_True. Qed.

(** C5.  Siblings A(1), B(2), C(3) under one parent: moving A after C
    yields B, C, A with the orders B(1), C(2), A(3), whether the list is
    the root list or the children of P. *)
Theorem move_A_after_C :
  reorderTreeLocally (js "A") (js "C") after ABC =
    [leaf "B" (Some "P") 1; leaf "C" (Some "P") 2; leaf "A" (Some "P") 3] ∧
  reorderTreeLocally (js "A") (js "C") after underP =
    [branch "P" None 1
       [leaf "B" (Some "P") 1; leaf "C" (Some "P") 2; leaf "A" (Some "P") 3]].
Proof. split; reflexivity. Qed.

(** ** The rename guard *)

(** C6.  [handleSave] trims the draft.  When the trimmed draft is
    non-empty and differs from the node's name, a rename request for
    that node is sent with the trimmed draft as the name (followed at
    most by the reload) and the editor closes; when it is empty or
    equals the name, nothing is sent, the editor closes and the draft is
    reset to the name. *)
Theorem handleSave_guard net asSectionNodes node row w :
  let trimmed := trim (draftName row) in
  let onRename := renameSection net asSectionNodes in
  (trimmed ≠ [] ∧ trimmed ≠ name node →
   ∃ a later,
     handleSave node onRename (row, w) =
     (Normal (),
      (mkRow false (draftName row),
       mkWorld a (history w ++ Http (PATCH_section (id node) trimmed) :: later))) ∧
     (later = [] ∨ later = [Http GET_sections])) ∧
  (trimmed = [] ∨ trimmed = name node →
   handleSave node onRename (row, w) = (Normal (), (mkRow false (name node), w))).
Proof.
  intros trimmed onRename. split.
  - intros [Hne Hnm]. unfold handleSave. cbn [fst snd]. fold trimmed.
    rewrite !bool_decide_eq_false_2 by done. cbn [orb].
    destruct (renameSection_history net asSectionNodes w (id node) trimmed)
      as (a & later & Hrun & Hlater).
    exists a, later. split; [|done].
    unfold inApp, setIsEditing, mbind, M_bind. cbn [fst snd].
    fold onRename in Hrun. by rewrite Hrun.
  - intros H. unfold handleSave. cbn [fst snd]. fold trimmed.
    assert (bool_decide (trimmed = []) || bool_decide (trimmed = name node) = true)
      as ->.
    { apply orb_true_iff. rewrite !bool_decide_eq_true. done. }
    by destruct w.
Qed.

Lemma handleSave_guard_witness :
  let row := mkRow true (js "  Intro ") in
  let node := leaf "A" None 1 in
  let net := always (Normal (mkResponse true (Normal JNull))) in
  (trim (draftName row) ≠ [] ∧ trim (draftName row) ≠ name node) ∧
  (trim (js "  ") = [] ∨ trim (js "  ") = name node) ∧
  (∃ a later,
     handleSave node (renameSection net noTree) (row, idle [node]) =
     (Normal (),
      (mkRow false (draftName row),
       mkWorld a ([] ++ Http (PATCH_section (js "A") (js "Intro")) :: later))) ∧
     (later = [] ∨ later = [Http GET_sections])) ∧
  handleSave node (renameSection net noTree) (mkRow true (js "  "), idle [node]) =
    (Normal (), (mkRow false (js "A"), idle [node])).
Proof.
  intros row node net.
  assert (H1 : trim (draftName row) ≠ [] ∧ trim (draftName row) ≠ name node)
    by (split; by_evaluation).
  assert (H2 : trim (js "  ") = [] ∨ trim (js "  ") = name node)
    by (left; reflexivity).
  split; [done|]. split; [done|]. split.
  - exact (proj1 (handleSave_guard net noTree node row (idle [node])) H1).
  - exact (proj2 (handleSave_guard net noTree node (mkRow true (js "  "))
                    (idle [node])) H2).
Defined.

(** ** Undoing an optimistic move *)

(** C7 (as the handler has it).  When the guards of
    [moveSectionByAnchor] pass, the tree is reordered locally and the
    move request is sent from that state.  If the request throws, the
    tree ends up exactly as it was before the move, the error message
    is recorded and nothing else was sent.  If it succeeds, the
    sections are requested again: when the server answers that request
    with an ok status and a JSON body, the tree becomes that body; when
    the reload fails, the locally reordered tree stays and the reload's
    error message is recorded.  The request succeeds when the server
    answers it with an ok status and a JSON body, and throws when the
    network fails or the status is not ok. *)
Theorem move_is_atomic net asSectionNodes w s t dragged target :
  s ≠ t →
  getNodeMeta (tree (ui w)) !! s = Some dragged →
  getNodeMeta (tree (ui w)) !! t = Some target →
  parentId dragged = parentId target →
  let position :=
    if meta_order dragged <? meta_order target then after else before in
  let local := reorderTreeLocally s t position (tree (ui w)) in
  let optimistic :=
    mkWorld (withTree (withError (withMoving (ui w) true) []) local) (history w) in
  let put := Http (PUT_sections_move s t position) in
  let request := moveSectionRequest net s t position optimistic in
  let final := snd (moveSectionByAnchor net asSectionNodes s t w) in
  moving (ui final) = false ∧
  (∀ e,
     fst request = Throw e →
     tree (ui final) = tree (ui w) ∧
     error (ui final) = messageOr e (js "Move failed") ∧
     history final = history w ++ [put]) ∧
  (fst request = Normal () →
   history final = history w ++ [put; Http GET_sections] ∧
   (∀ res body,
      net (history w ++ [put; Http GET_sections]) = Normal res →
      res_ok res = true →
      res_json res = Normal body →
      tree (ui final) = asSectionNodes body ∧ error (ui final) = []) ∧
   (∀ e,
      fst (fetchSections net (snd request)) = Throw e →
      tree (ui final) = local ∧
      error (ui final) = messageOr e (js "Unknown error"))) ∧
  (∀ res data,
     net (history w ++ [put]) = Normal res →
     res_ok res = true →
     res_json res = Normal data →
     fst request = Normal ()) ∧
  (∀ e, net (history w ++ [put]) = Throw e → fst request = Throw e) ∧
  (∀ res,
     net (history w ++ [put]) = Normal res →
     res_ok res = false →
     ∃ e, fst request = Throw e).
Proof.
  intros Hst Hs Ht Hp position local optimistic put request final.
  subst final. rewrite (moveSectionByAnchor_proceeds net asSectionNodes w s t
                          dragged target Hst Hs Ht Hp).
  fold position local optimistic. subst request.
  destruct (moveSectionRequest_honours net s t position optimistic)
    as (Hworld & Hdown & Hanswer).
  rewrite Hworld. change (history optimistic) with (history w). fold put.
  split; [|split; [|split; [|split; [|split]]]].
  - destruct (fst (moveSectionRequest net s t position optimistic)) as [[]|e];
      [|done].
    cbn [snd ui history]. by destruct (fst (fetchSections net _)).
  - by intros e ->.
  - intros ->. cbn [snd ui history]. split; [done|].
    match goal with |- context [fetchSections net ?w1] => set (requested := w1) end.
    destruct (fetchSections_honours net requested) as (_ & _ & Hreload).
    split.
    + intros res body Hnet Hok Hjson.
      destruct (Hreload res) as (_ & Hbody & _).
      { subst requested. cbn [history]. by rewrite <- app_assoc. }
      by rewrite (Hbody body Hjson Hok).
    + by intros e ->.
  - intros res data Hnet Hok Hjson.
    destruct (Hanswer res Hnet) as (_ & Hbody & _). eauto.
  - done.
  - intros res Hnet Hok.
    exact (honours_failure net _ _ _ optimistic res
             (moveSectionRequest_honours net s t position) Hnet Hok).
Qed.

Lemma move_is_atomic_witness :
  let refusing := always (Normal (mkResponse false
                    (Normal (JObject [(js "detail", JString (js "Conflict"))])))) in
  let accepting := always (Normal (mkResponse true (Normal (JArray [])))) in
  let run net := snd (moveSectionByAnchor net fromServer (js "A") (js "C") (idle ABC)) in
  let local := reorderTreeLocally (js "A") (js "C") after ABC in
  let optimistic :=
    mkWorld (withTree (withError (withMoving (ui (idle ABC)) true) []) local) [] in
  let put := Http (PUT_sections_move (js "A") (js "C") after) in
  ((js "A" ≠ js "C" ∧
    getNodeMeta ABC !! js "A" = Some (mkMeta (Some (js "P")) 1) ∧
    getNodeMeta ABC !! js "C" = Some (mkMeta (Some (js "P")) 3) ∧
    Some (js "P") = Some (js "P")) ∧
   fst (moveSectionRequest refusing (js "A") (js "C") after optimistic)
     = Throw (ErrorObject (js "Conflict")) ∧
   (fst (moveSectionRequest accepting (js "A") (js "C") after optimistic) = Normal () ∧
    accepting ([] ++ [put; Http GET_sections])
      = Normal (mkResponse true (Normal (JArray []))) ∧
    res_ok (mkResponse true (Normal (JArray []))) = true ∧
    res_json (mkResponse true (Normal (JArray []))) = Normal (JArray [])) ∧
   (fst (moveSectionRequest reloadFails (js "A") (js "C") after optimistic) = Normal () ∧
    fst (fetchSections reloadFails
           (snd (moveSectionRequest reloadFails (js "A") (js "C") after optimistic)))
      = Throw (ErrorObject (js "Failed to fetch")))) ∧
  (tree (ui (run refusing)) = ABC ∧
   error (ui (run refusing)) = js "Conflict" ∧
   history (run refusing) = [put]) ∧
  (tree (ui (run accepting)) = fromServer (JArray []) ∧
   error (ui (run accepting)) = []) ∧
  (tree (ui (run reloadFails)) = local ∧
   error (ui (run reloadFails)) = js "Failed to fetch").
Proof.
  intros refusing accepting run local optimistic put.
  assert (H1 : js "A" ≠ js "C") by by_evaluation.
  assert (H2 : getNodeMeta ABC !! js "A" = Some (mkMeta (Some (js "P")) 1))
    by (vm_compute; reflexivity).
  assert (H3 : getNodeMeta ABC !! js "C" = Some (mkMeta (Some (js "P")) 3))
    by (vm_compute; reflexivity).
  assert (Hrefused : fst (moveSectionRequest refusing (js "A") (js "C") after optimistic)
                     = Throw (ErrorObject (js "Conflict"))) by reflexivity.
  assert (Haccepted : fst (moveSectionRequest accepting (js "A") (js "C") after optimistic)
                      = Normal ()) by reflexivity.
  assert (Hsent : fst (moveSectionRequest reloadFails (js "A") (js "C") after optimistic)
                  = Normal ()) by reflexivity.
  assert (Hlost : fst (fetchSections reloadFails
                    (snd (moveSectionRequest reloadFails (js "A") (js "C") after
                            optimistic)))
                  = Throw (ErrorObject (js "Failed to fetch"))) by reflexivity.
  split; [done|]. split; [|split].
  - destruct (move_is_atomic refusing fromServer (idle ABC) (js "A") (js "C")
                _ _ H1 H2 H3 eq_refl) as (_ & Hthrown & _).
    exact (Hthrown _ Hrefused).
  - destruct (move_is_atomic accepting fromServer (idle ABC) (js "A") (js "C")
                _ _ H1 H2 H3 eq_refl) as (_ & _ & Hdone & _).
    destruct (Hdone Haccepted) as (_ & Hreloaded & _).
    exact (Hreloaded _ (JArray []) eq_refl eq_refl eq_refl).
  - destruct (move_is_atomic reloadFails fromServer (idle ABC) (js "A") (js "C")
                _ _ H1 H2 H3 eq_refl) as (_ & _ & Hdone & _).
    destruct (Hdone Hsent) as (_ & _ & Hkept).
    exact (Hkept _ Hlost).
Defined.

(** C7 as stated fails when the reload does.  The move request
    succeeds, the request for the sections is lost: the tree that stays
    is the one reordered locally, not one the server sent, and the
    reload's error is shown. *)
Lemma move_reload_can_fail :
  let local := reorderTreeLocally (js "A") (js "C") after ABC in
  let optimistic :=
    mkWorld (withTree (withError (withMoving (ui (idle ABC)) true) []) local) [] in
  let final :=
    snd (moveSectionByAnchor reloadFails fromServer (js "A") (js "C") (idle ABC)) in
  fst (moveSectionRequest reloadFails (js "A") (js "C") after optimistic) = Normal () ∧
  history final =
    [Http (PUT_sections_move (js "A") (js "C") after); Http GET_sections] ∧
  tree (ui final) =
    [leaf "B" (Some "P") 1; leaf "C" (Some "P") 2; leaf "A" (Some "P") 3] ∧
  (∀ body, tree (ui final) ≠ fromServer body) ∧
  error (ui final) = js "Failed to fetch".
Proof.
  cbv zeta.
  split; [reflexivity|]. split; [by vm_compute|]. split; [by vm_compute|].
  split; [|by vm_compute].
  intros body. vm_compute. congruence.
Qed.

(** ** Request helpers and the server's [detail] *)

(** C8 (as the helpers have it).  Each request helper of [api.ts] sends
    its one request and then: when the response body is JSON and
    [res.ok] holds it returns normally (the body, or nothing for the
    helpers declared [void]); when the body is JSON and [res.ok] does
    not hold it throws an [Error] whose message is the body's [detail]
    converted to a string if [detail] is truthy (so a non-empty string
    [detail] is the message) and the helper's fixed fallback message
    otherwise; a truthy [detail] that cannot be converted to a string
    makes it throw the conversion's [TypeError], and so does a body that
    is [null]; when the body is not JSON it throws what [res.json()]
    rejected with, whatever [res.ok] is. *)
Theorem api_error_contract net :
  honoursDetail net (fetchSections net) GET_sections
    (js "Failed to load sections") (fun data => data) ∧
  (∀ file,
     honoursDetail net (importSectionsRequest net file)
       (POST_sections_import file) (js "Import failed") (fun data => data)) ∧
  (∀ sectionId targetSectionId position,
     honoursDetail net (moveSectionRequest net sectionId targetSectionId position)
       (PUT_sections_move sectionId targetSectionId position) (js "Move failed")
       (fun _ => ())) ∧
  (∀ sectionId name,
     honoursDetail net (renameSectionRequest net sectionId name)
       (PATCH_section sectionId name) (js "Rename failed") (fun _ => ())) ∧
  (∀ name parentId anchorSectionId anchorPosition,
     honoursDetail net
       (createSectionRequest net name parentId anchorSectionId anchorPosition)
       (POST_sections name parentId anchorSectionId anchorPosition)
       (js "Create failed") (fun data => data)) ∧
  (∀ sectionId strategy,
     honoursDetail net (deleteSectionRequest net sectionId strategy)
       (DELETE_section sectionId strategy) (js "Delete failed") (fun _ => ())).
Proof.
  split; [apply fetchSections_honours|].
  split; [intros; apply importSectionsRequest_honours|].
  split; [intros; apply moveSectionRequest_honours|].
  split; [intros; apply renameSectionRequest_honours|].
  split; [intros; apply createSectionRequest_honours|].
  intros; apply deleteSectionRequest_honours.
Qed.

Lemma api_error_contract_witness :
  let request := Http (DELETE_section (js "A") cascade) in
  let said := JObject [(js "detail", JString (js "Section not found"))] in
  let count := JObject [(js "detail", JNumber (js "1e+21"))] in
  let opaque := JObject [(js "detail", JObject [(js "toString", JNull)])] in
  let answer body := mkResponse false (Normal body) in
  let run body :=
    fst (deleteSectionRequest (always (Normal (answer body))) (js "A") cascade (idle [])) in
  ((∀ body, always (Normal (answer body)) ([] ++ [request]) = Normal (answer body)) ∧
   (∀ body, res_json (answer body) = Normal body) ∧
   (∀ body, res_ok (answer body) = false) ∧
   (detailOf said = Normal (Some (JString (js "Section not found"))) ∧
    truthy (Some (JString (js "Section not found"))) = true ∧
    ToString (JString (js "Section not found")) = Normal (js "Section not found")) ∧
   (detailOf count = Normal (Some (JNumber (js "1e+21"))) ∧
    truthy (Some (JNumber (js "1e+21"))) = true ∧
    ToString (JNumber (js "1e+21")) = Normal (js "1e+21")) ∧
   (detailOf opaque = Normal (Some (JObject [(js "toString", JNull)])) ∧
    truthy (Some (JObject [(js "toString", JNull)])) = true ∧
    ToString (JObject [(js "toString", JNull)]) =
      Throw (ErrorObject notPrimitiveMessage))) ∧
  run said = Throw (ErrorObject (js "Section not found")) ∧
  run count = Throw (ErrorObject (js "1e+21")) ∧
  run opaque = Throw (ErrorObject notPrimitiveMessage).
Proof.
  intros request said count opaque answer run.
  assert (H1 : ∀ body,
             always (Normal (answer body)) ([] ++ [request]) = Normal (answer body))
    by reflexivity.
  assert (H2 : ∀ body, res_json (answer body) = Normal body) by reflexivity.
  assert (H3 : ∀ body, res_ok (answer body) = false) by reflexivity.
  assert (Hs1 : detailOf said = Normal (Some (JString (js "Section not found"))))
    by reflexivity.
  assert (Hs2 : truthy (Some (JString (js "Section not found"))) = true)
    by reflexivity.
  assert (Hs3 : ToString (JString (js "Section not found"))
                = Normal (js "Section not found")) by reflexivity.
  assert (Hc1 : detailOf count = Normal (Some (JNumber (js "1e+21"))))
    by reflexivity.
  assert (Hc2 : truthy (Some (JNumber (js "1e+21"))) = true) by reflexivity.
  assert (Hc3 : ToString (JNumber (js "1e+21")) = Normal (js "1e+21"))
    by reflexivity.
  assert (Ho1 : detailOf opaque = Normal (Some (JObject [(js "toString", JNull)])))
    by reflexivity.
  assert (Ho2 : truthy (Some (JObject [(js "toString", JNull)])) = true)
    by reflexivity.
  assert (Ho3 : ToString (JObject [(js "toString", JNull)])
                = Throw (ErrorObject notPrimitiveMessage)) by reflexivity.
  split; [done|].
  assert (Hdelete : ∀ body,
             honoursDetail (always (Normal (answer body)))
               (deleteSectionRequest (always (Normal (answer body))) (js "A") cascade)
               (DELETE_section (js "A") cascade) (js "Delete failed") (fun _ => ())).
  { intros body.
    exact (proj2 (proj2 (proj2 (proj2 (proj2
             (api_error_contract (always (Normal (answer body)))))))) (js "A") cascade). }
  split; [|split].
  - destruct (Hdelete said (idle [])) as (_ & _ & Hres).
    destruct (Hres (answer said) (H1 said)) as (_ & _ & Hdetail & _).
    exact (Hdetail said _ _ (H2 said) (H3 said) Hs1 Hs2 Hs3).
  - destruct (Hdelete count (idle [])) as (_ & _ & Hres).
    destruct (Hres (answer count) (H1 count)) as (_ & _ & Hdetail & _).
    exact (Hdetail count _ _ (H2 count) (H3 count) Hc1 Hc2 Hc3).
  - destruct (Hdelete opaque (idle [])) as (_ & _ & Hres).
    destruct (Hres (answer opaque) (H1 opaque)) as (_ & _ & _ & Hthrows & _).
    exact (Hthrows opaque _ _ (H2 opaque) (H3 opaque) Ho1 Ho2 Ho3).
Defined.

(** C8 as stated fails in three ways.  A response with [res.ok] whose
    body is not JSON (an empty 204, say) makes the helper throw; a
    failed response whose body is not JSON (a plain-text 500) makes it
    throw the parser's error, not the fallback; and a failed response
    whose [detail] is the empty string is reported with the fallback
    although [detail] is present. *)
Lemma api_error_contract_as_stated_fails :
  let world := idle [] in
  let parseError := ErrorObject (js "Unexpected end of JSON input") in
  let emptyOk := mkResponse true (Throw parseError) in
  let plainTextFailure := mkResponse false (Throw parseError) in
  let blankDetail := mkResponse false (Normal (JObject [(js "detail", JString [])])) in
  (res_ok emptyOk = true ∧
   fst (deleteSectionRequest (always (Normal emptyOk)) (js "A") cascade world)
     = Throw parseError) ∧
  (res_ok plainTextFailure = false ∧
   fst (moveSectionRequest (always (Normal plainTextFailure)) (js "A") (js "C") after world)
     = Throw parseError ∧
   parseError ≠ ErrorObject (js "Move failed")) ∧
  (res_ok blankDetail = false ∧
   res_json blankDetail = Normal (JObject [(js "detail", JString [])]) ∧
   detailOf (JObject [(js "detail", JString [])]) = Normal (Some (JString [])) ∧
   fst (moveSectionRequest (always (Normal blankDetail)) (js "A") (js "C") after world)
     = Throw (ErrorObject (js "Move failed")) ∧
   js "Move failed" ≠ []).
Proof.
  cbv zeta. repeat split; try reflexivity; by vm_compute.
Qed.

(** ** Deleting a section *)

(** C9.  For a node with children [onDeleteSection] only opens the
    confirmation dialog; "Delete All" then sends the delete with
    strategy [cascade] (followed at most by the reload) and "Keep" sends
    nothing.  For a node without children no dialog opens and the delete
    is sent at once with strategy [lift_children].  So no [lift_children]
    delete is ever sent for a node that has children. *)
Theorem delete_asks_before_cascade net asSectionNodes node w :
  (children node ≠ [] →
   ∃ dialog,
     onDeleteSection net asSectionNodes node w =
       (Normal (Some dialog),
        mkWorld (ui w) (history w ++ [ModalConfirm (js "Delete children too?")])) ∧
     (∀ w1, ∃ a later,
        clickOk (Some dialog) w1 =
          (Normal (),
           mkWorld a (history w1 ++ Http (DELETE_section (id node) cascade) :: later)) ∧
        (later = [] ∨ later = [Http GET_sections])) ∧
     (∀ w1, clickCancel (Some dialog) w1 = (Normal (), w1))) ∧
  (children node = [] →
   ∃ a later,
     onDeleteSection net asSectionNodes node w =
       (Normal None,
        mkWorld a
          (history w ++ Http (DELETE_section (id node) lift_children) :: later)) ∧
     (later = [] ∨ later = [Http GET_sections])).
Proof.
  split; intros Hch; unfold onDeleteSection;
    destruct (children node) as [|c ch]; try done.
  - eexists. split; [reflexivity|]. split; [|done].
    intros w1. apply delete_then_reload_history.
  - run_handler.
    match goal with |- context [deleteSectionRequest net _ _ ?w1] =>
      rewrite (honours_run net _ _ _ w1
                 (deleteSectionRequest_honours net (id node) lift_children));
      destruct (fst (deleteSectionRequest net (id node) lift_children w1)) as [[]|e]
    end.
    + cbn [ui history]. rewrite loadSections_silent. cbn [ui history].
      rewrite <- app_assoc. eauto.
    + cbn [ui history]. eauto.
Qed.

Lemma delete_asks_before_cascade_witness :
  let net := always (Throw (ErrorObject (js "Failed to fetch"))) in
  let parent := branch "P" None 1 ABC in
  let child := leaf "A" (Some "P") 1 in
  (children parent ≠ [] ∧ children child = []) ∧
  (∃ dialog,
     onDeleteSection net noTree parent (idle underP) =
       (Normal (Some dialog),
        mkWorld (ui (idle underP)) ([] ++ [ModalConfirm (js "Delete children too?")])) ∧
     (∀ w1, ∃ a later,
        clickOk (Some dialog) w1 =
          (Normal (),
           mkWorld a (history w1 ++ Http (DELETE_section (js "P") cascade) :: later)) ∧
        (later = [] ∨ later = [Http GET_sections])) ∧
     (∀ w1, clickCancel (Some dialog) w1 = (Normal (), w1))) ∧
  (∃ a later,
     onDeleteSection net noTree child (idle underP) =
       (Normal None,
        mkWorld a ([] ++ Http (DELETE_section (js "A") lift_children) :: later)) ∧
     (later = [] ∨ later = [Http GET_sections])).
Proof.
  intros net parent child.
  assert (H1 : children parent ≠ []) by discriminate.
  assert (H2 : children child = []) by reflexivity.
  split; [done|]. split.
  - exact (proj1 (delete_asks_before_cascade net noTree parent (idle underP)) H1).
  - exact (proj2 (delete_asks_before_cascade net noTree child (idle underP)) H2).
Defined.

(** ** What a move leaves alone *)

(** C10 (as the tree walk has it).  [reorderTreeLocally] changes only
    sibling lists that hold both ids and do not lie below another list
    holding both; with pairwise distinct ids there is at most one list
    holding both, and nothing lies above it that does.  A sibling list
    reached without crossing such a list and not holding both comes back
    with the same nodes at the same positions, each with its [id],
    [parent_id], [section_key], [name], [is_leaf] and [order], the walk
    continuing in its children.  An edited list comes back as a
    permutation of its nodes in which only [order] differs: [id],
    [parent_id], [section_key], [name], [is_leaf] and the [children]
    subtree of every node are kept.  Where no list holds both ids the
    tree comes back as it was. *)
Theorem reorder_frame s t position nodes :
  (∀ path g,
     groupAt path nodes = Some g → clearAbove s t path nodes →
     ¬ holdsBoth s t g →
     ∃ g',
       groupAt path (reorderTreeLocally s t position nodes) = Some g' ∧
       Forall2 (fun n m => sameRow n m ∧
                  children m = reorderTreeLocally s t position (children n)) g g') ∧
  (∀ path g,
     groupAt path nodes = Some g → clearAbove s t path nodes →
     holdsBoth s t g →
     ∃ edited g',
       groupAt path (reorderTreeLocally s t position nodes) = Some g' ∧
       edited ≡ₚ g ∧ Forall2 sameButOrder edited g') ∧
  ((∀ path g, groupAt path nodes = Some g → ¬ holdsBoth s t g) →
   reorderTreeLocally s t position nodes = nodes) ∧
  (NoDup (treeIds nodes) →
   ∀ path path' g g',
     groupAt path nodes = Some g → groupAt path' nodes = Some g' →
     holdsBoth s t g → holdsBoth s t g' →
     path = path' ∧ clearAbove s t path nodes).
Proof.
  split; [|split; [|split]].
  - intros path g Hg Hclear Hno.
    exists ((fun n => with_children n (reorderTreeLocally s t position (children n)))
              <$> g).
    split.
    + rewrite (groupAt_reorder s t position path nodes g Hg Hclear).
      by rewrite reorder_unfold, decide_False by done.
    + apply Forall2_fmap_r, Forall_Forall2_diag, Forall_forall.
      intros n _. by destruct n.
  - intros path g Hg Hclear Hboth.
    set (edited := moveWithin position g (findIndex (has_id s) g)
                     (findIndex (has_id t) g)).
    exists edited, (normalizeLocalOrders edited). split; [|split].
    + rewrite (groupAt_reorder s t position path nodes g Hg Hclear).
      by rewrite reorder_unfold, decide_True by done.
    + apply (moveWithin_perm s position g _ (proj1 Hboth)).
    + apply normalizeLocalOrders_rows.
  - apply reorder_nothing_to_do.
  - intros Hnd path path' g g' Hg Hg' [Hs _] [Hs' _]. split.
    + by eapply unique_group.
    + by eapply distinct_ids_clearAbove.
Qed.

Lemma reorder_frame_witness :
  (groupAt [] underP = Some underP ∧
   clearAbove (js "A") (js "C") [] underP ∧
   ¬ holdsBoth (js "A") (js "C") underP ∧
   groupAt [0%nat] underP = Some ABC ∧
   clearAbove (js "A") (js "C") [0%nat] underP ∧
   holdsBoth (js "A") (js "C") ABC ∧
   NoDup (treeIds underP)) ∧
  (∃ g',
     groupAt [] (reorderTreeLocally (js "A") (js "C") after underP) = Some g' ∧
     Forall2 (fun n m => sameRow n m ∧
                children m = reorderTreeLocally (js "A") (js "C") after (children n))
       underP g') ∧
  (∃ edited g',
     groupAt [0%nat] (reorderTreeLocally (js "A") (js "C") after underP) = Some g' ∧
     edited ≡ₚ ABC ∧ Forall2 sameButOrder edited g') ∧
  ([0%nat] = [0%nat] ∧ clearAbove (js "A") (js "C") [0%nat] underP).
Proof.
  assert (H1 : groupAt [] underP = Some underP) by reflexivity.
  assert (H2 : clearAbove (js "A") (js "C") [] underP) by exact I.
  assert (H3 : ¬ holdsBoth (js "A") (js "C") underP) by by_evaluation.
  assert (H4 : groupAt [0%nat] underP = Some ABC) by reflexivity.
  assert (H5 : clearAbove (js "A") (js "C") [0%nat] underP) by (split; [done|exact I]).
  assert (H6 : holdsBoth (js "A") (js "C") ABC) by by_evaluation.
  assert (H7 : NoDup (treeIds underP)) by by_evaluation.
  split; [done|].
  destruct (reorder_frame (js "A") (js "C") after underP) as (F1 & F2 & _ & F4).
  split; [exact (F1 [] underP H1 H2 H3)|].
  split; [exact (F2 [0%nat] ABC H4 H5 H6)|].
  exact (F4 H7 [0%nat] [0%nat] ABC ABC H4 H4 H6 H6).
Defined.

(** C10 as stated fails on a tree with the two ids in two sibling lists
    side by side: the walk visits every child of a list that does not
    hold both ids, and both lists come back edited. *)
Lemma twins_both_edited :
  let result := reorderTreeLocally (js "a") (js "b") after twins in
  groupAt [0%nat] twins = Some [leaf "a" (Some "P") 1; leaf "b" (Some "P") 2] ∧
  groupAt [0%nat] result = Some [leaf "b" (Some "P") 1; leaf "a" (Some "P") 2] ∧
  groupAt [1%nat] twins = Some [leaf "a" (Some "Q") 1; leaf "b" (Some "Q") 2] ∧
  groupAt [1%nat] result = Some [leaf "b" (Some "Q") 1; leaf "a" (Some "Q") 2] ∧
  groupAt [0%nat] result ≠ groupAt [0%nat] twins ∧
  groupAt [1%nat] result ≠ groupAt [1%nat] twins.
Proof.
  cbv zeta. repeat split; try reflexivity; by vm_compute.
Qed.

(** * Further properties *)

#[local] Set Warnings "-clear-no-such-hyp".

(** ** Renumbering again *)

Lemma with_order_same n : with_order n (order n) = n.
Proof. by destruct n. Qed.

(** Renumbering reads nothing of the old [order] values. *)
Lemma normalizeLocalOrders_blind lst lst' :
  Forall2 sameButOrder lst lst' →
  normalizeLocalOrders lst' = normalizeLocalOrders lst.
Proof.
  intros H. apply list_eq; intros k.
  rewrite !normalizeLocalOrders_lookup.
  destruct (lst !! k) as [n|] eqn:Hn.
  - destruct (Forall2_lookup_l _ _ _ _ _ H Hn) as (m & Hm & Hnm).
    rewrite Hm. simpl. rewrite Hnm. by destruct n.
  - apply lookup_ge_None in Hn. rewrite (Forall2_length _ _ _ H) in Hn.
    apply lookup_ge_None in Hn. by rewrite Hn.
Qed.

(** X1.  Renumbering is idempotent, and a sibling list whose orders are
    already [1..N] in sequence comes back as it was. *)
Theorem normalizeLocalOrders_settled :
  (∀ lst, normalizeLocalOrders (normalizeLocalOrders lst) = normalizeLocalOrders lst) ∧
  (∀ lst, order <$> lst = oneTo (length lst) → normalizeLocalOrders lst = lst).
Proof.
  split.
  - intros lst. apply normalizeLocalOrders_blind, normalizeLocalOrders_rows.
  - intros lst H. apply list_eq; intros k.
    rewrite normalizeLocalOrders_lookup.
    destruct (lst !! k) as [n|] eqn:Hn; [|done]. simpl.
    assert (Ho : (order <$> lst) !! k = Some (order n))
      by by rewrite list_lookup_fmap, Hn.
    rewrite H, oneTo_lookup in Ho. case_decide; [|done].
    injection Ho as Ho. rewrite Ho. by rewrite with_order_same.
Qed.

Lemma normalizeLocalOrders_settled_witness :
  order <$> ABC = oneTo (length ABC) ∧ normalizeLocalOrders ABC = ABC.
Proof.
  assert (H : order <$> ABC = oneTo (length ABC)) by reflexivity.
  split; [done|]. exact (proj2 normalizeLocalOrders_settled ABC H).
Defined.

(** ** The ids of a reordered tree *)

Lemma treeIds_perm lst lst' : lst ≡ₚ lst' → treeIds lst ≡ₚ treeIds lst'.
Proof.
  induction 1 as [|n l l' _ IH|n m l|l l' l'' _ IH1 _ IH2].
  - done.
  - rewrite !treeIds_cons. by rewrite IH.
  - rewrite !treeIds_cons, !app_assoc. by rewrite (Permutation_app_comm (nodeIds m)).
  - by rewrite IH1.
Qed.

Lemma treeIds_sameButOrder lst lst' :
  Forall2 sameButOrder lst lst' → treeIds lst' = treeIds lst.
Proof.
  induction 1 as [|n m l l' Hnm _ IH]; [done|].
  rewrite !treeIds_cons, IH. f_equal.
  rewrite Hnm. by destruct n.
Qed.

Lemma ids_sameButOrder lst lst' :
  Forall2 sameButOrder lst lst' → id <$> lst' = id <$> lst.
Proof.
  induction 1 as [|n m l l' Hnm _ IH]; [done|].
  rewrite !fmap_cons, IH. f_equal. rewrite Hnm. by destruct n.
Qed.

(** X2.  A local reorder neither adds nor loses an id: the ids of the
    whole tree, and the ids of the root list, are after the call a
    permutation of what they were; so pairwise distinct ids stay
    pairwise distinct. *)
Theorem reorder_keeps_ids s t position nodes :
  treeIds (reorderTreeLocally s t position nodes) ≡ₚ treeIds nodes ∧
  id <$> reorderTreeLocally s t position nodes ≡ₚ id <$> nodes ∧
  (NoDup (treeIds nodes) → NoDup (treeIds (reorderTreeLocally s t position nodes))).
Proof.
  assert (Hlist : ∀ l,
    Forall (fun n => treeIds (reorderTreeLocally s t position (children n))
                     ≡ₚ treeIds (children n)) l →
    treeIds (reorderTreeLocally s t position l) ≡ₚ treeIds l).
  { intros l Hl. rewrite reorder_unfold. case_decide as Hboth.
    - rewrite (treeIds_sameButOrder _ _ (normalizeLocalOrders_rows _)).
      apply treeIds_perm, moveWithin_perm, Hboth.
    - clear Hboth. induction Hl as [|n l Hn _ IH]; [done|].
      rewrite fmap_cons, !treeIds_cons, IH. apply Permutation_app_tail.
      rewrite !nodeIds_unfold. simpl. by rewrite Hn. }
  assert (Hnode : ∀ n, treeIds (reorderTreeLocally s t position (children n))
                       ≡ₚ treeIds (children n)).
  { induction n as [i p k nm lf o ch IH] using SectionNode_nested_ind.
    by apply Hlist. }
  assert (Hall : treeIds (reorderTreeLocally s t position nodes) ≡ₚ treeIds nodes).
  { apply Hlist, Forall_forall. auto. }
  split; [done|]. split.
  - rewrite reorder_unfold. case_decide as Hboth.
    + rewrite (ids_sameButOrder _ _ (normalizeLocalOrders_rows _)).
      apply fmap_Permutation, moveWithin_perm, Hboth.
    + rewrite <- list_fmap_compose.
      assert ((id ∘ λ n, with_children n (reorderTreeLocally s t position (children n)))
                <$> nodes = id <$> nodes) as ->; [|done].
      by apply list_fmap_ext.
  - intros Hnd. by rewrite Hall.
Qed.

Lemma reorder_keeps_ids_witness :
  NoDup (treeIds underP) ∧
  NoDup (treeIds (reorderTreeLocally (js "A") (js "C") after underP)).
Proof.
  assert (H : NoDup (treeIds underP)) by by_evaluation.
  split; [done|].
  exact (proj2 (proj2 (reorder_keeps_ids (js "A") (js "C") after underP)) H).
Defined.

(** ** The two directions of a move, written out *)

Lemma editedInPlace_forward s t position l1 x a y b :
  Forall (fun n => has_id s n = false) l1 → has_id s x = true →
  Forall (fun n => has_id t n = false) (l1 ++ a) → has_id t y = true →
  editedInPlace s t position (l1 ++ x :: a ++ y :: b) =
  l1 ++ a ++ match position with before => [x; y] | after => [y; x] end ++ b.
Proof.
  intros Hl1 Hx Hl1a Hy. unfold editedInPlace.
  rewrite removeSlot_first by done.
  rewrite app_assoc, reinsert_first by done. by rewrite <- app_assoc.
Qed.

Lemma editedInPlace_backward s t position a y b x l2 :
  Forall (fun n => has_id t n = false) a → has_id t y = true →
  Forall (fun n => has_id s n = false) (a ++ y :: b) → has_id s x = true →
  editedInPlace s t position (a ++ y :: b ++ x :: l2) =
  a ++ match position with before => [x; y] | after => [y; x] end ++ b ++ l2.
Proof.
  intros Ha Hy Hayb Hx. unfold editedInPlace.
  replace (a ++ y :: b ++ x :: l2) with ((a ++ y :: b) ++ x :: l2)
    by (by rewrite <- app_assoc).
  rewrite removeSlot_first by done.
  rewrite <- app_assoc. simpl app. by rewrite reinsert_first.
Qed.

Lemma splice_insert_beyond {A} (l : list A) (start : Z) (items : list A) :
  Z.of_nat (length l) ≤ start → fst (splice l start 0 items) = l ++ items.
Proof.
  intros H. unfold splice. cbn [fst].
  rewrite (proj2 (Z.ltb_ge _ _)) by lia.
  rewrite Z.min_r by lia.
  replace (Z.min (Z.max 0 0) _) with 0 by lia.
  rewrite Z.add_0_r, Nat2Z.id, firstn_all, drop_all. by rewrite app_nil_r.
Qed.

(** X3.  Called with the same id for the moved node and the target (a
    call [moveSectionByAnchor] never makes), ["before"] only renumbers
    the sibling list, while ["after"] moves the node one slot down,
    past its next sibling. *)
Theorem reorder_onto_itself s l1 x l2 :
  s ∉ id <$> l1 → id x = s →
  reorderTreeLocally s s before (l1 ++ x :: l2) =
    normalizeLocalOrders (l1 ++ x :: l2) ∧
  reorderTreeLocally s s after (l1 ++ x :: l2) =
    normalizeLocalOrders
      (l1 ++ match l2 with [] => [x] | y :: l2' => y :: x :: l2' end).
Proof.
  intros Hl1 Hx. apply absent_iff in Hl1. apply has_id_true in Hx.
  assert (Hboth : holdsBoth s s (l1 ++ x :: l2)).
  { assert (s ∈ id <$> l1 ++ x :: l2); [|done].
    rewrite fmap_app, fmap_cons, elem_of_app, elem_of_cons.
    right. left. symmetry. by apply has_id_true. }
  split; rewrite reorder_unfold, decide_True by done; f_equal;
    rewrite findIndex_first by done; unfold moveWithin;
    rewrite splice_remove_one; change (option_list (head [x])) with [x];
    rewrite Z.ltb_irrefl.
  - rewrite decide_True by done. by rewrite splice_insert_at.
  - rewrite decide_False by done. destruct l2 as [|y l2'].
    + rewrite splice_insert_beyond by (rewrite length_app; simpl; lia).
      by rewrite app_nil_r.
    + replace (Z.of_nat (length l1) + 1) with (Z.of_nat (length (l1 ++ [y])))
        by (rewrite length_app; simpl; lia).
      replace (l1 ++ y :: l2') with ((l1 ++ [y]) ++ l2')
        by (by rewrite <- app_assoc).
      rewrite splice_insert_at. by rewrite <- app_assoc.
Qed.

Lemma reorder_onto_itself_witness :
((js "A" ∉ id <$> ([] : list SectionNode)) ∧ id (leaf "A" (Some "P") 1) = js "A") ∧
  reorderTreeLocally (js "A") (js "A") before ABC = normalizeLocalOrders ABC ∧
  reorderTreeLocally (js "A") (js "A") after ABC =
    normalizeLocalOrders
      [leaf "B" (Some "P") 2; leaf "A" (Some "P") 1; leaf "C" (Some "P") 3].
Proof.
  assert (H1 : js "A" ∉ id <$> ([] : list SectionNode)) by by_evaluation.
  assert (H2 : id (leaf "A" (Some "P") 1) = js "A") by reflexivity.
  split; [done|].
  exact (reorder_onto_itself (js "A") [] (leaf "A" (Some "P") 1)
           [leaf "B" (Some "P") 2; leaf "C" (Some "P") 3] H1 H2).
Defined.

(** ** Sibling lists with distinct ids *)

Lemma NoDup_ids_middle (l1 : list SectionNode) x l2 :
  NoDup (id <$> l1 ++ x :: l2) →
  Forall (fun n => has_id (id x) n = false) (l1 ++ l2).
Proof.
  rewrite fmap_app, fmap_cons. intros H.
  apply NoDup_app in H as (_ & H1 & H2). apply NoDup_cons in H2 as [H2 _].
  apply Forall_app. split; apply absent_iff; [|done].
  intros Hin. apply (H1 _ Hin). left.
Qed.

(** Two distinct positions of a list, the smaller first. *)
Lemma split_at_two {A} (l : list A) (i j : nat) x y :
  (i < j)%nat → l !! i = Some x → l !! j = Some y →
  ∃ l1 a b, l = l1 ++ x :: a ++ y :: b ∧ length l1 = i ∧
            (length l1 + S (length a))%nat = j.
Proof.
  intros Hij Hi Hj.
  pose proof (take_drop_middle l i x Hi) as Hl.
  assert (Hj' : drop (S i) l !! (j - S i)%nat = Some y).
  { rewrite lookup_drop. by replace (S i + (j - S i))%nat with j by lia. }
  pose proof (take_drop_middle _ _ y Hj') as Hd.
  exists (take i l), (take (j - S i) (drop (S i) l)),
    (drop (S (j - S i)) (drop (S i) l)).
  split; [by rewrite Hd|].
  apply lookup_lt_Some in Hi, Hj'. rewrite length_drop in Hj'.
  rewrite !length_take, length_drop. lia.
Qed.

Lemma holdsBoth_ids s t lst lst' :
  id <$> lst' ≡ₚ id <$> lst → holdsBoth s t lst → holdsBoth s t lst'.
Proof. unfold holdsBoth. intros ->. done. Qed.

(** X4.  In a sibling list numbered [1..N] with distinct ids, dragging a
    node onto another - with the position [moveSectionByAnchor] derives
    from the two [order] values - puts the dragged node into the slot
    the target had. *)
Theorem drop_lands_on_target_slot lst (i j : nat) x y :
  NoDup (id <$> lst) →
  order <$> lst = oneTo (length lst) →
  lst !! i = Some x → lst !! j = Some y → i ≠ j →
  let position := if order x <? order y then after else before in
  reorderTreeLocally (id x) (id y) position lst !! j =
  Some (with_order x (Z.of_nat j + 1)).
Proof.
  intros Hnd Hord Hi Hj Hij position.
  assert (Hox : order x = Z.of_nat i + 1).
  { assert (H : (order <$> lst) !! i = Some (order x))
      by by rewrite list_lookup_fmap, Hi.
    rewrite Hord, oneTo_lookup in H. case_decide; congruence. }
  assert (Hoy : order y = Z.of_nat j + 1).
  { assert (H : (order <$> lst) !! j = Some (order y))
      by by rewrite list_lookup_fmap, Hj.
    rewrite Hord, oneTo_lookup in H. case_decide; congruence. }
  assert (Hst : id x ≠ id y).
  { intros Heq. apply Hij. apply (NoDup_lookup _ i j (id x) Hnd).
    - by rewrite list_lookup_fmap, Hi.
    - by rewrite list_lookup_fmap, Hj, Heq. }
  assert (Hboth : holdsBoth (id x) (id y) lst).
  { split; apply list_elem_of_fmap; eexists; (split; [done|]);
      by eapply list_elem_of_lookup_2. }
  rewrite reorder_unfold, decide_True by done.
  rewrite moveWithin_editedInPlace by done.
  rewrite normalizeLocalOrders_lookup.
  assert (Hx : has_id (id x) x = true) by by apply has_id_true.
  assert (Hy : has_id (id y) y = true) by by apply has_id_true.
  assert (Hxy : has_id (id y) x = false) by by apply has_id_false.
  assert (Hyx : has_id (id x) y = false) by (apply has_id_false; congruence).
  destruct (decide (i < j)%nat) as [Hlt|Hge].
  - destruct (split_at_two lst i j x y Hlt Hi Hj) as (l1 & a & b & -> & Hl1 & Hlen).
    pose proof (NoDup_ids_middle l1 x (a ++ y :: b) Hnd) as Hs.
    replace (l1 ++ x :: a ++ y :: b) with ((l1 ++ x :: a) ++ y :: b) in Hnd
      by (by rewrite <- app_assoc).
    pose proof (NoDup_ids_middle _ y b Hnd) as Ht.
    apply Forall_app in Hs as [Hs1 _].
    apply Forall_app in Ht as [Ht1 _]. apply Forall_app in Ht1 as [Ht1 Ht2].
    apply Forall_cons in Ht2 as [_ Ht2].
    rewrite editedInPlace_forward; [|done|done|by apply Forall_app|done].
    subst position. rewrite (proj2 (Z.ltb_lt _ _)) by lia.
    rewrite app_assoc, lookup_app_r by (rewrite length_app; lia).
    rewrite length_app.
    replace (j - (length l1 + length a))%nat with 1%nat by lia. done.
  - destruct (split_at_two lst j i y x ltac:(lia) Hj Hi)
      as (a & b & l2 & -> & Ha & Hlen).
    pose proof (NoDup_ids_middle a y (b ++ x :: l2) Hnd) as Ht.
    replace (a ++ y :: b ++ x :: l2) with ((a ++ y :: b) ++ x :: l2) in Hnd
      by (by rewrite <- app_assoc).
    pose proof (NoDup_ids_middle _ x l2 Hnd) as Hs.
    apply Forall_app in Ht as [Ht1 _]. apply Forall_app in Hs as [Hs1 _].
    rewrite editedInPlace_backward by done.
    subst position. rewrite (proj2 (Z.ltb_ge _ _)) by lia.
    rewrite lookup_app_r by lia.
    replace (j - length a)%nat with 0%nat by lia. done.
Qed.

Lemma drop_lands_on_target_slot_witness :
  (NoDup (id <$> ABC) ∧
   order <$> ABC = oneTo (length ABC) ∧
   ABC !! 2%nat = Some (leaf "C" (Some "P") 3) ∧
   ABC !! 0%nat = Some (leaf "A" (Some "P") 1) ∧
   2%nat ≠ 0%nat) ∧
  reorderTreeLocally (js "C") (js "A") before ABC !! 0%nat =
    Some (with_order (leaf "C" (Some "P") 3) 1).
Proof.
  assert (H1 : NoDup (id <$> ABC)) by by_evaluation.
  assert (H2 : order <$> ABC = oneTo (length ABC)) by reflexivity.
  assert (H3 : ABC !! 2%nat = Some (leaf "C" (Some "P") 3)) by reflexivity.
  assert (H4 : ABC !! 0%nat = Some (leaf "A" (Some "P") 1)) by reflexivity.
  assert (H5 : 2%nat ≠ 0%nat) by lia.
  split; [done|].
  exact (drop_lands_on_target_slot ABC 2 0 _ _ H1 H2 H3 H4 H5).
Defined.

(** ** Replaying a move *)

Lemma sameButOrder_has_id s n m : sameButOrder n m → has_id s m = has_id s n.
Proof. intros ->. by destruct n. Qed.

Lemma removeSlot_compat s lst : ∀ lst',
  Forall2 sameButOrder lst lst' →
  match removeSlot s lst, removeSlot s lst' with
  | Some (m, rest), Some (m', rest') =>
      sameButOrder m m' ∧ Forall2 sameButOrder rest rest'
  | None, None => True
  | _, _ => False
  end.
Proof.
  induction lst as [|n lst IH]; intros lst' H; inversion H as [|? m ? l' Hnm Hl];
    subst; simpl; [done|].
  rewrite (sameButOrder_has_id s n m Hnm).
  destruct (has_id s n); [done|].
  specialize (IH l' Hl).
  destruct (removeSlot s lst) as [[? ?]|], (removeSlot s l') as [[? ?]|];
    simpl; try done.
  destruct IH. split; [done|by constructor].
Qed.

Lemma reinsert_compat position t m m' lst : ∀ lst',
  sameButOrder m m' → Forall2 sameButOrder lst lst' →
  Forall2 sameButOrder (reinsert position t m lst) (reinsert position t m' lst').
Proof.
  induction lst as [|n lst IH]; intros lst' Hm H;
    inversion H as [|? n' ? l' Hnn Hl]; subst; simpl; [done|].
  rewrite (sameButOrder_has_id t n n' Hnn).
  destruct (has_id t n).
  - destruct position; by repeat constructor.
  - constructor; [done|]. by apply IH.
Qed.

(** The edit looks at ids only: lists that differ in [order] values are
    edited alike. *)
Lemma editedInPlace_compat s t position lst lst' :
  Forall2 sameButOrder lst lst' →
  Forall2 sameButOrder (editedInPlace s t position lst)
    (editedInPlace s t position lst').
Proof.
  intros H. unfold editedInPlace.
  pose proof (removeSlot_compat s lst lst' H) as Hrm.
  destruct (removeSlot s lst) as [[? ?]|], (removeSlot s lst') as [[? ?]|];
    try done.
  destruct Hrm. by apply reinsert_compat.
Qed.

Lemma editedInPlace_twice s t position lst :
  NoDup (id <$> lst) → s ≠ t → holdsBoth s t lst →
  editedInPlace s t position (editedInPlace s t position lst) =
  editedInPlace s t position lst.
Proof.
  intros Hnd Hst [Hs Ht].
  apply list_elem_of_fmap in Hs as (x & -> & Hx).
  apply list_elem_of_fmap in Ht as (y & -> & Hy).
  apply list_elem_of_lookup in Hx as [i Hi], Hy as [j Hj].
  assert (Hsx : has_id (id x) x = true) by by apply has_id_true.
  assert (Hty : has_id (id y) y = true) by by apply has_id_true.
  assert (Hij : i ≠ j) by (intros ->; congruence).
  destruct (decide (i < j)%nat) as [Hlt|Hge].
  - destruct (split_at_two lst i j x y Hlt Hi Hj) as (l1 & a & b & -> & _ & _).
    pose proof (NoDup_ids_middle l1 x (a ++ y :: b) Hnd) as HS.
    replace (l1 ++ x :: a ++ y :: b) with ((l1 ++ x :: a) ++ y :: b) in Hnd
      by (by rewrite <- app_assoc).
    pose proof (NoDup_ids_middle _ y b Hnd) as HT.
    apply Forall_app in HS as [Hs1 Hs2]. apply Forall_app in Hs2 as [Hs2 _].
    apply Forall_app in HT as [Ht1 _]. apply Forall_app in Ht1 as [Ht1 Ht2].
    apply Forall_cons in Ht2 as [_ Ht2].
    rewrite editedInPlace_forward; [|done|done|by apply Forall_app|done].
    destruct position.
    + rewrite !(app_assoc l1 a).
      apply (editedInPlace_forward _ _ before (l1 ++ a) x [] y b);
        rewrite ?app_nil_r; try done; by apply Forall_app.
    + rewrite !(app_assoc l1 a).
      apply (editedInPlace_backward _ _ after (l1 ++ a) y [] x b); try done.
      * by apply Forall_app.
      * apply Forall_app. split; [by apply Forall_app|].
        constructor; [|done]. apply has_id_false. congruence.
  - destruct (split_at_two lst j i y x ltac:(lia) Hj Hi)
      as (a & b & l2 & -> & _ & _).
    pose proof (NoDup_ids_middle a y (b ++ x :: l2) Hnd) as HT.
    replace (a ++ y :: b ++ x :: l2) with ((a ++ y :: b) ++ x :: l2) in Hnd
      by (by rewrite <- app_assoc).
    pose proof (NoDup_ids_middle _ x l2 Hnd) as HS.
    apply Forall_app in HT as [Ht1 _]. apply Forall_app in HS as [Hs1 _].
    rewrite editedInPlace_backward by done.
    apply Forall_app in Hs1 as [Hs1 _].
    destruct position.
    + apply (editedInPlace_forward _ _ before a x [] y (b ++ l2));
        rewrite ?app_nil_r; done.
    + apply (editedInPlace_backward _ _ after a y [] x (b ++ l2)); try done.
      apply Forall_app. split; [done|].
      constructor; [|done]. apply has_id_false. congruence.
Qed.

Lemma treeIds_root (lst : list SectionNode) x : x ∈ id <$> lst → x ∈ treeIds lst.
Proof. apply (groupAt_ids [] lst lst x eq_refl). Qed.

Lemma NoDup_treeIds_root lst : NoDup (treeIds lst) → NoDup (id <$> lst).
Proof.
  induction lst as [|n lst IH]; [constructor|].
  rewrite treeIds_cons, nodeIds_unfold, fmap_cons. simpl.
  intros H. apply NoDup_cons in H as [Hn H]. apply NoDup_app in H as (_ & _ & H).
  constructor; [|by apply IH].
  intros Hin. apply Hn, elem_of_app. right. by apply treeIds_root.
Qed.

Lemma NoDup_treeIds_children lst n :
  NoDup (treeIds lst) → n ∈ lst → NoDup (treeIds (children n)).
Proof.
  intros Hnd Hn.
  assert (H : NoDup (nodeIds n)).
  { apply (NoDup_concat_part (nodeIds <$> lst)); [done|].
    apply list_elem_of_fmap. by exists n. }
  rewrite nodeIds_unfold in H. by inversion H.
Qed.

Lemma ids_with_children (f : SectionNode → list SectionNode)
    (lst : list SectionNode) :
  id <$> ((fun n => with_children n (f n)) <$> lst) = id <$> lst.
Proof. rewrite <- list_fmap_compose. by apply list_fmap_ext. Qed.

(** X5.  With pairwise distinct ids and two different ids, applying the
    same local move a second time changes nothing. *)
Theorem reorder_idempotent s t position nodes :
  NoDup (treeIds nodes) → s ≠ t →
  reorderTreeLocally s t position (reorderTreeLocally s t position nodes) =
  reorderTreeLocally s t position nodes.
Proof.
  intros Hnd Hst.
  set (again l := reorderTreeLocally s t position (reorderTreeLocally s t position l)
                  = reorderTreeLocally s t position l).
  assert (Hlist : ∀ l,
    Forall (fun n => NoDup (treeIds (children n)) → again (children n)) l →
    NoDup (treeIds l) → again l).
  { intros l Hl Hndl. unfold again.
    rewrite (reorder_unfold s t position l). case_decide as Hboth.
    - rewrite moveWithin_editedInPlace by done.
      set (e := editedInPlace s t position l).
      assert (Hboth' : holdsBoth s t (normalizeLocalOrders e)).
      { apply (holdsBoth_ids s t l); [|done].
        rewrite (ids_sameButOrder _ _ (normalizeLocalOrders_rows e)).
        apply fmap_Permutation. subst e.
        rewrite <- (moveWithin_editedInPlace s t position l Hst Hboth).
        apply moveWithin_perm, Hboth. }
      rewrite reorder_unfold, decide_True by done.
      rewrite moveWithin_editedInPlace by done.
      rewrite (normalizeLocalOrders_blind
                 (editedInPlace s t position e)
                 (editedInPlace s t position (normalizeLocalOrders e))).
      + subst e. by rewrite editedInPlace_twice by auto using NoDup_treeIds_root.
      + apply editedInPlace_compat, normalizeLocalOrders_rows.
    - rewrite reorder_unfold, decide_False.
      + rewrite <- list_fmap_compose. apply list_fmap_ext. intros k n Hk.
        simpl. unfold with_children at 1. cbn [id parent_id section_key name
          is_leaf order children with_children].
        unfold with_children. f_equal.
        rewrite Forall_forall in Hl. apply Hl.
        * by eapply list_elem_of_lookup_2.
        * eapply NoDup_treeIds_children; [done|]. by eapply list_elem_of_lookup_2.
      + intros H. apply Hboth. revert H. apply holdsBoth_ids.
        by rewrite ids_with_children. }
  assert (Hnode : ∀ n, NoDup (treeIds (children n)) → again (children n)).
  { induction n as [i p k nm lf o ch IH] using SectionNode_nested_ind.
    intros H. by apply Hlist. }
  apply Hlist; [|done]. apply Forall_forall. auto.
Qed.

Lemma reorder_idempotent_witness :
  (NoDup (treeIds underP) ∧ js "A" ≠ js "C") ∧
  reorderTreeLocally (js "A") (js "C") after
    (reorderTreeLocally (js "A") (js "C") after underP) =
  reorderTreeLocally (js "A") (js "C") after underP.
Proof.
  assert (H1 : NoDup (treeIds underP)) by by_evaluation.
  assert (H2 : js "A" ≠ js "C") by by_evaluation.
  split; [done|].
  exact (reorder_idempotent (js "A") (js "C") after underP H1 H2).
Defined.

(** X6.  The local reorder of a sibling list does not look at the [order]
    values the list had: two lists that differ in [order] values only
    come back equal. *)
Theorem reorder_ignores_old_orders s t position lst lst' :
  Forall2 sameButOrder lst lst' → holdsBoth s t lst → s ≠ t →
  reorderTreeLocally s t position lst' = reorderTreeLocally s t position lst.
Proof.
  intros H Hboth Hst.
  assert (Hboth' : holdsBoth s t lst').
  { apply (holdsBoth_ids s t lst); [|done]. by rewrite (ids_sameButOrder lst lst'). }
  rewrite !reorder_unfold, !decide_True by done.
  rewrite !moveWithin_editedInPlace by done.
  apply normalizeLocalOrders_blind. by apply editedInPlace_compat.
Qed.

Lemma reorder_ignores_old_orders_witness :
  let stale := [leaf "A" (Some "P") 7; leaf "B" (Some "P") 7; leaf "C" (Some "P") 0] in
  (Forall2 sameButOrder ABC stale ∧ holdsBoth (js "A") (js "C") ABC ∧
   js "A" ≠ js "C") ∧
  reorderTreeLocally (js "A") (js "C") after stale =
  reorderTreeLocally (js "A") (js "C") after ABC.
Proof.
  intros stale.
  assert (H1 : Forall2 sameButOrder ABC stale) by (repeat constructor).
  assert (H2 : holdsBoth (js "A") (js "C") ABC) by by_evaluation.
  assert (H3 : js "A" ≠ js "C") by by_evaluation.
  split; [done|].
  exact (reorder_ignores_old_orders (js "A") (js "C") after ABC stale H1 H2 H3).
Defined.

(** ** What the node index holds *)

(** X7.  [getNodeMeta] has an entry exactly for the ids that occur in the
    tree, and the entry of an id holds the [parent_id] and [order] of
    the last node in traversal order that carries it; with pairwise
    distinct ids every node is found under its id with its own
    [parent_id] and [order]. *)
Theorem getNodeMeta_last_wins nodes :
  (∀ s, getNodeMeta nodes !! s = lastWith s (treeNodes nodes) None) ∧
  (∀ s, getNodeMeta nodes !! s = None ↔ s ∉ treeIds nodes) ∧
  (NoDup (treeIds nodes) →
   ∀ n, n ∈ treeNodes nodes →
        getNodeMeta nodes !! id n = Some (mkMeta (parent_id n) (order n))).
Proof.
  split; [apply getNodeMeta_lookup|]. split; [apply getNodeMeta_absent|].
  intros Hnd n Hn. rewrite getNodeMeta_lookup. unfold lastWith.
  rewrite treeIds_treeNodes in Hnd.
  destruct (last (filter _ _)) as [x|] eqn:E.
  - apply last_Some_elem_of, list_elem_of_filter in E as [Hid Hx].
    apply list_elem_of_lookup in Hx as [a Ha], Hn as [b Hb].
    assert (a = b) as ->.
    { apply (NoDup_lookup _ a b (id n) Hnd);
        rewrite list_lookup_fmap; [by rewrite Ha; simpl; f_equal|by rewrite Hb]. }
    congruence.
  - apply last_None in E.
    assert (Hin : n ∈ filter (fun y => id y = id n) (treeNodes nodes))
      by by apply list_elem_of_filter.
    rewrite E in Hin. by inversion Hin.
Qed.

Lemma getNodeMeta_last_wins_witness :
  (NoDup (treeIds underP) ∧ leaf "B" (Some "P") 2 ∈ treeNodes underP) ∧
  getNodeMeta underP !! js "B" = Some (mkMeta (Some (js "P")) 2).
Proof.
  assert (H1 : NoDup (treeIds underP)) by by_evaluation.
  assert (H2 : leaf "B" (Some "P") 2 ∈ treeNodes underP).
  { apply list_elem_of_In. vm_compute. auto. }
  split; [done|].
  exact (proj2 (proj2 (getNodeMeta_last_wins underP)) H1 _ H2).
Defined.

(** X8.  A move that names an id no node carries does nothing at all: no
    request, no message, no flag. *)
Theorem move_unknown_id_ignored net asSectionNodes sectionId targetId w :
  sectionId ∉ treeIds (tree (ui w)) ∨ targetId ∉ treeIds (tree (ui w)) →
  moveSectionByAnchor net asSectionNodes sectionId targetId w = (Normal (), w).
Proof.
  intros H. unfold moveSectionByAnchor.
  destruct (decide (sectionId = targetId)); [done|].
  destruct H as [H|H]; apply getNodeMeta_absent in H; rewrite H; [done|].
  by destruct (getNodeMeta (tree (ui w)) !! sectionId).
Qed.

Lemma move_unknown_id_ignored_witness :
  (js "A" ∉ treeIds underP ∨ js "Z" ∉ treeIds underP) ∧
  moveSectionByAnchor (always (Throw ThrownValue)) noTree (js "A") (js "Z")
    (idle underP) = (Normal (), idle underP).
Proof.
  assert (H : js "A" ∉ treeIds underP ∨ js "Z" ∉ treeIds underP)
    by (right; by_evaluation).
  split; [done|].
  exact (move_unknown_id_ignored (always (Throw ThrownValue)) noTree
           (js "A") (js "Z") (idle underP) H).
Defined.

(** ** Trimming twice *)

Lemma trimStart_head s :
  match trimStart s with
  | [] => True
  | c :: _ => isWhiteSpace c = false
  end.
Proof.
  induction s as [|c s IH]; simpl; [done|].
  destruct (isWhiteSpace c) eqn:E; [done|]. by rewrite E.
Qed.

Lemma trimStart_settled s :
  match s with [] => True | c :: _ => isWhiteSpace c = false end →
  trimStart s = s.
Proof. destruct s as [|c s]; simpl; [done|]. by intros ->. Qed.

Lemma trimStart_suffix s : ∃ p, s = p ++ trimStart s.
Proof.
  induction s as [|c s [p IH]]; simpl; [by exists []|].
  destruct (isWhiteSpace c).
  - exists (c :: p). simpl. by f_equal.
  - by exists [].
Qed.

(** [trim] leaves a string that [trim] no longer changes. *)
Lemma trim_idempotent s : trim (trim s) = trim s.
Proof.
  unfold trim.
  set (u := trimStart s). set (v := trimStart (reverse u)).
  assert (Hv : trimStart (reverse v) = reverse v).
  { apply trimStart_settled.
    destruct (reverse v) as [|c r] eqn:E; [done|].
    assert (Hlast : last v = Some c) by by rewrite <- head_reverse, E.
    destruct (trimStart_suffix (reverse u)) as [p Hp]. fold v in Hp.
    assert (Hu : head u = Some c).
    { rewrite <- last_reverse, Hp, last_app. by rewrite Hlast. }
    pose proof (trimStart_head s) as Hh. fold u in Hh.
    destruct u; simpl in Hu; [done|]. congruence. }
  rewrite Hv, reverse_involutive.
  f_equal. apply trimStart_settled. subst v. apply trimStart_head.
Qed.

(** ** What handlers leave behind *)

Ltac api_unfold :=
  unfold fetchSections, importSectionsRequest, moveSectionRequest,
    renameSectionRequest, createSectionRequest, deleteSectionRequest,
    fetch, jsonOf, detail, settle, throw, mbind, M_bind, mret, M_ret;
  cbn [history ui].

Ltac api_cases net :=
  api_unfold;
  match goal with
  | |- context [net ?h] => destruct (net h) as [[[] [?|?]]|?]
  end;
  cbn [res_ok res_json negb fst snd]; try done;
  match goal with
  | |- context [detailOf ?d] => destruct (detailOf d)
  end;
  try done;
  by match goal with
     | |- context [newError ?v] => destruct (newError v)
     end.

Section MoreHandlerFacts.
Variables (net : Network) (asSectionNodes : json -> list SectionNode).

(** A request helper sees the history, not the component state. *)
Lemma fetchSections_reads_history a a' h :
  fst (fetchSections net (mkWorld a h)) = fst (fetchSections net (mkWorld a' h)).
Proof. api_cases net. Qed.

Lemma renameSectionRequest_reads_history sectionId name a a' h :
  fst (renameSectionRequest net sectionId name (mkWorld a h)) =
  fst (renameSectionRequest net sectionId name (mkWorld a' h)).
Proof. api_cases net. Qed.

Lemma createSectionRequest_reads_history name parentId anchor position a a' h :
  fst (createSectionRequest net name parentId anchor position (mkWorld a h)) =
  fst (createSectionRequest net name parentId anchor position (mkWorld a' h)).
Proof. api_cases net. Qed.

Lemma importSectionsRequest_reads_history file a a' h :
  fst (importSectionsRequest net file (mkWorld a h)) =
  fst (importSectionsRequest net file (mkWorld a' h)).
Proof. api_cases net. Qed.

Lemma world_eta w : mkWorld (ui w) (history w) = w.
Proof. by destruct w. Qed.

(** Either mode of [loadSections], step by step. *)
Lemma loadSections_run (silent : bool) w :
  let start := if silent then ui w else withError (withLoading (ui w) true) [] in
  let loaded :=
    match fst (fetchSections net w) with
    | Normal data => withTree start (asSectionNodes data)
    | Throw e => withError start (messageOr e (js "Unknown error"))
    end in
  loadSections net asSectionNodes silent w =
  (Normal (),
   mkWorld (if silent then loaded else withLoading loaded false)
     (history w ++ [Http GET_sections])).
Proof.
  intros start loaded. destruct silent.
  - apply loadSections_silent.
  - unfold loadSections. run_handler. cbn [negb]. run_handler.
    unfold setLoading, setUi. cbn [ui history]. fold start.
    match goal with |- context [fetchSections net ?w1] =>
      rewrite (honours_run net _ _ _ w1 (fetchSections_honours net))
    end.
    cbn [ui history fst snd].
    subst loaded.
    rewrite (fetchSections_reads_history start (ui w) (history w)), world_eta.
    subst start. by destruct (fst (fetchSections net _)).
Qed.

(** X9.  [loadSections] never throws and sends exactly one [GET].  When
    the server answers it with an ok status and a JSON body, the tree
    becomes that body; whenever [fetchSections] throws, the tree stays
    and the thrown message is recorded, and it throws in particular when
    the network fails.  A silent reload touches neither [loading] nor,
    on success, a message already shown; a loud one clears the message
    first and ends with [loading] off. *)
Theorem loadSections_outcome (silent : bool) w :
  let final := snd (loadSections net asSectionNodes silent w) in
  fst (loadSections net asSectionNodes silent w) = Normal () ∧
  history final = history w ++ [Http GET_sections] ∧
  loading (ui final) = (if silent then loading (ui w) else false) ∧
  (∀ res body,
     net (history w ++ [Http GET_sections]) = Normal res →
     res_ok res = true →
     res_json res = Normal body →
     tree (ui final) = asSectionNodes body ∧
     error (ui final) = (if silent then error (ui w) else [])) ∧
  (∀ e,
     fst (fetchSections net w) = Throw e →
     tree (ui final) = tree (ui w) ∧
     error (ui final) = messageOr e (js "Unknown error")) ∧
  (∀ e,
     net (history w ++ [Http GET_sections]) = Throw e →
     fst (fetchSections net w) = Throw e).
Proof.
  intros final. subst final. rewrite loadSections_run. cbn [fst snd ui history].
  destruct (fetchSections_honours net w) as (_ & Hfails & Hanswer).
  split; [done|]. split; [done|].
  split; [by destruct silent, (fst (fetchSections net w))|].
  split; [|split].
  - intros res body Hnet Hok Hjson.
    destruct (Hanswer res Hnet) as (_ & Hbody & _).
    rewrite (Hbody body Hjson Hok). by destruct silent.
  - intros e ->. by destruct silent.
  - done.
Qed.

(** [renameSection], step by step. *)
Lemma renameSection_run sectionId name w :
  let busy := withRenamingId (withError (ui w) []) (Some sectionId) in
  renameSection net asSectionNodes sectionId name w =
  match fst (renameSectionRequest net sectionId name w) with
  | Throw e =>
      (Normal (),
       mkWorld (withRenamingId (withError busy (messageOr e (js "Rename failed"))) None)
         (history w ++ [Http (PATCH_section sectionId name)]))
  | Normal _ =>
      (Normal (),
       mkWorld
         (withRenamingId
            match fst (fetchSections net
                         (mkWorld busy
                            (history w ++ [Http (PATCH_section sectionId name)]))) with
            | Normal data => withTree busy (asSectionNodes data)
            | Throw e => withError busy (messageOr e (js "Unknown error"))
            end None)
         (history w ++ [Http (PATCH_section sectionId name); Http GET_sections]))
  end.
Proof.
  intros busy. unfold renameSection. run_handler. fold busy.
  rewrite (honours_run net _ _ _ (mkWorld busy (history w))
             (renameSectionRequest_honours net sectionId name)).
  rewrite (renameSectionRequest_reads_history sectionId name busy (ui w) (history w)),
    world_eta.
  destruct (fst (renameSectionRequest net sectionId name _)) as [[]|e];
    cbn [ui history]; [|done].
  rewrite loadSections_silent. cbn [ui history]. by rewrite <- app_assoc.
Qed.

(** X10.  [renameSection] never throws and always ends with [renamingId]
    cleared.  If the rename request throws, nothing else is sent, the
    tree is untouched and the thrown message (or ["Rename failed"]) is
    shown; if it succeeds, one reload follows. *)
Theorem renameSection_outcome sectionId name w :
  let final := snd (renameSection net asSectionNodes sectionId name w) in
  fst (renameSection net asSectionNodes sectionId name w) = Normal () ∧
  renamingId (ui final) = None ∧
  match fst (renameSectionRequest net sectionId name w) with
  | Throw e =>
      history final = history w ++ [Http (PATCH_section sectionId name)] ∧
      tree (ui final) = tree (ui w) ∧
      error (ui final) = messageOr e (js "Rename failed")
  | Normal _ =>
      history final =
        history w ++ [Http (PATCH_section sectionId name); Http GET_sections]
  end.
Proof.
  intros final. subst final. rewrite renameSection_run.
  destruct (fst (renameSectionRequest net sectionId name w)) as [[]|e];
    cbn [fst snd ui history]; done.
Qed.

(** X11.  The server's words reach the user: when the rename is answered
    with a failure status and a JSON body whose [detail] is a non-empty
    string, that string becomes the error message of the page, the tree
    stays as it was and no reload is attempted. *)
Theorem rename_failure_shows_detail sectionId name w res data d :
  net (history w ++ [Http (PATCH_section sectionId name)]) = Normal res →
  res_ok res = false →
  res_json res = Normal data →
  detailOf data = Normal (Some (JString d)) →
  d ≠ [] →
  let final := snd (renameSection net asSectionNodes sectionId name w) in
  error (ui final) = d ∧
  tree (ui final) = tree (ui w) ∧
  history final = history w ++ [Http (PATCH_section sectionId name)].
Proof.
  intros Hnet Hok Hjson Hdetail Hd final. subst final.
  rewrite renameSection_run.
  destruct (renameSectionRequest_honours net sectionId name w) as (_ & _ & Hres).
  destruct (Hres res Hnet) as (_ & _ & Hthrow & _).
  rewrite (Hthrow data (JString d) d Hjson Hok Hdetail); [done| |done].
  by apply bool_decide_eq_true.
Qed.
End MoreHandlerFacts.

Lemma loadSections_outcome_witness :
  let body := JArray [] in
  let res := mkResponse true (Normal body) in
  let down := ErrorObject (js "Failed to fetch") in
  let final := snd (loadSections (always (Normal res)) fromServer false (idle ABC)) in
  let failed := snd (loadSections (always (Throw down)) fromServer true (idle ABC)) in
  (always (Normal res) ([] ++ [Http GET_sections]) = Normal res ∧
   res_ok res = true ∧
   res_json res = Normal body ∧
   always (Throw down) ([] ++ [Http GET_sections]) = Throw down) ∧
  (tree (ui final) = fromServer body ∧ error (ui final) = []) ∧
  (tree (ui failed) = ABC ∧ error (ui failed) = js "Failed to fetch").
Proof.
  intros body res down final failed.
  split; [done|]. split.
  - exact (proj1 (proj2 (proj2 (proj2
             (loadSections_outcome (always (Normal res)) fromServer false (idle ABC)))))
             res body eq_refl eq_refl eq_refl).
  - pose proof (loadSections_outcome (always (Throw down)) fromServer true (idle ABC))
      as (_ & _ & _ & _ & Hthrown & Hdown).
    exact (Hthrown down (Hdown down eq_refl)).
Defined.

Lemma rename_failure_shows_detail_witness :
  let data := JObject [(js "detail", JString (js "Name must not be empty"))] in
  let res := mkResponse false (Normal data) in
  let final :=
    snd (renameSection (always (Normal res)) noTree (js "A") (js "x") (idle ABC)) in
  (always (Normal res) ([] ++ [Http (PATCH_section (js "A") (js "x"))]) = Normal res ∧
   res_ok res = false ∧
   res_json res = Normal data ∧
   detailOf data = Normal (Some (JString (js "Name must not be empty"))) ∧
   js "Name must not be empty" ≠ []) ∧
  error (ui final) = js "Name must not be empty" ∧
  tree (ui final) = ABC ∧
  history final = [Http (PATCH_section (js "A") (js "x"))].
Proof.
  intros data res final.
  assert (H5 : js "Name must not be empty" ≠ []) by by_evaluation.
  split; [done|].
  exact (rename_failure_shows_detail (always (Normal res)) noTree (js "A") (js "x")
           (idle ABC) res data _ eq_refl eq_refl eq_refl eq_refl H5).
Defined.

(** ** Creating a section *)

Section CreateFacts.
Variables (net : Network) (asSectionNodes : json -> list SectionNode).

(** [onCreateSection] past its guard, step by step. *)
Lemma onCreateSection_run name parentId anchorId mode w :
  trim name ≠ [] →
  let request :=
    POST_sections (trim name) parentId
      (match mode with sibling => anchorId | child => None end) after in
  ∃ a later,
    onCreateSection net asSectionNodes name parentId anchorId mode w =
    (Normal (), mkWorld (withCreatingId a None) (history w ++ Http request :: later)) ∧
    (later = [] ∨ later = [Http GET_sections]).
Proof.
  intros Hname request. unfold onCreateSection.
  rewrite bool_decide_eq_false_2 by done.
  destruct (present anchorId); unfold setCreatingId; run_handler;
    match goal with |- context [createSectionRequest net ?n ?p ?a ?q ?w1] =>
      rewrite (honours_run net _ _ _ w1
                 (createSectionRequest_honours net n p a q));
      destruct (fst (createSectionRequest net n p a q w1)) as [?|?]
    end; cbn [ui history];
    try (rewrite loadSections_silent; cbn [ui history]; rewrite <- app_assoc);
    eauto.
Qed.

(** X12.  [onCreateSection] sends nothing and changes nothing for a name
    that is blank after trimming.  Otherwise it never throws, its first
    request is the one [POST] - with the trimmed name, the parent it
    was given, the anchor only in ["sibling"] mode and always position
    ["after"] - followed at most by the reload, and [creatingId] ends
    cleared. *)
Theorem onCreateSection_request name parentId anchorId mode w :
  (trim name = [] →
   onCreateSection net asSectionNodes name parentId anchorId mode w = (Normal (), w)) ∧
  (trim name ≠ [] →
   ∃ final later,
     onCreateSection net asSectionNodes name parentId anchorId mode w =
       (Normal (), final) ∧
     creatingId (ui final) = None ∧
     history final =
       history w ++
       Http (POST_sections (trim name) parentId
               (match mode with sibling => anchorId | child => None end) after)
       :: later ∧
     (later = [] ∨ later = [Http GET_sections])).
Proof.
  split.
  - intros H. unfold onCreateSection. by rewrite bool_decide_eq_true_2.
  - intros H.
    destruct (onCreateSection_run name parentId anchorId mode w H)
      as (a & later & Hrun & Hlater).
    eexists _, later. split; [exact Hrun|]. done.
Qed.

(** X13.  The add form of a row.  With no mode chosen or a blank draft
    [handleCreate] does nothing.  Otherwise "add sibling" asks for a
    section with the row's own parent, anchored after the row, "add
    child" for one with the row as parent and no anchor; the name sent
    is the trimmed draft, and the form is emptied and closed. *)
Theorem handleCreate_requests node form w :
  let draft := trim (addDraftName form) in
  let create := onCreateSection net asSectionNodes in
  (addMode form = None ∨ draft = [] →
   handleCreate node create (form, w) = (Normal (), (form, w))) ∧
  (draft ≠ [] → ∀ mode, addMode form = Some mode →
   ∃ a later,
     handleCreate node create (form, w) =
     (Normal (),
      (mkAddForm None [],
       mkWorld a
         (history w ++
          Http (match mode with
                | sibling => POST_sections draft (parent_id node) (Some (id node)) after
                | child => POST_sections draft (Some (id node)) None after
                end) :: later))) ∧
     (later = [] ∨ later = [Http GET_sections])).
Proof.
  intros draft create. split.
  - intros H. unfold handleCreate. cbn [fst snd]. fold draft.
    destruct (addMode form); [|done].
    destruct H as [? | Hd]; [done|]. by rewrite bool_decide_eq_true_2.
  - intros Hdraft mode Hmode. unfold handleCreate. cbn [fst snd].
    fold draft. rewrite Hmode, bool_decide_eq_false_2 by done.
    assert (Htrim : trim draft ≠ []) by (subst draft; by rewrite trim_idempotent).
    destruct mode.
    + destruct (onCreateSection_run draft (parent_id node) (Some (id node))
                  sibling w Htrim) as (a & later & Hrun & Hlater).
      exists (withCreatingId a None), later. split; [|done].
      unfold inWorld, setAddDraftName, setAddMode, mbind, M_bind.
      cbn [fst snd]. subst create. rewrite Hrun.
      subst draft. by rewrite trim_idempotent.
    + destruct (onCreateSection_run draft (Some (id node)) None
                  child w Htrim) as (a & later & Hrun & Hlater).
      exists (withCreatingId a None), later. split; [|done].
      unfold inWorld, setAddDraftName, setAddMode, mbind, M_bind.
      cbn [fst snd]. subst create. rewrite Hrun.
      subst draft. by rewrite trim_idempotent.
Qed.
End CreateFacts.

Lemma onCreateSection_request_witness :
  let net := always (Throw (ErrorObject (js "Failed to fetch"))) in
  (trim (js "   ") = [] ∧ trim (js " Scope ") ≠ []) ∧
  onCreateSection net noTree (js "   ") None (Some (js "A")) sibling (idle ABC) =
    (Normal (), idle ABC) ∧
  ∃ final later,
    onCreateSection net noTree (js " Scope ") None (Some (js "A")) child (idle ABC) =
      (Normal (), final) ∧
    creatingId (ui final) = None ∧
    history final =
      [] ++ Http (POST_sections (trim (js " Scope ")) None None after) :: later ∧
    (later = [] ∨ later = [Http GET_sections]).
Proof.
  intros net.
  assert (H1 : trim (js "   ") = []) by reflexivity.
  assert (H2 : trim (js " Scope ") ≠ []) by by_evaluation.
  split; [done|]. split.
  - exact (proj1 (onCreateSection_request net noTree (js "   ") None (Some (js "A"))
                    sibling (idle ABC)) H1).
  - exact (proj2 (onCreateSection_request net noTree (js " Scope ") None
                    (Some (js "A")) child (idle ABC)) H2).
Defined.

Lemma handleCreate_requests_witness :
  let net := always (Throw (ErrorObject (js "Failed to fetch"))) in
  let node := leaf "B" (Some "P") 2 in
  let form := mkAddForm (Some sibling) (js " Scope ") in
  let blank := mkAddForm (Some child) (js "  ") in
  ((addMode blank = None ∨ trim (addDraftName blank) = []) ∧
   trim (addDraftName form) ≠ [] ∧ addMode form = Some sibling) ∧
  handleCreate node (onCreateSection net noTree) (blank, idle ABC) =
    (Normal (), (blank, idle ABC)) ∧
  ∃ a later,
    handleCreate node (onCreateSection net noTree) (form, idle ABC) =
    (Normal (),
     (mkAddForm None [],
      mkWorld a
        ([] ++ Http (POST_sections (trim (js " Scope ")) (Some (js "P"))
                       (Some (js "B")) after) :: later))) ∧
    (later = [] ∨ later = [Http GET_sections]).
Proof.
  intros net node form blank.
  assert (H1 : addMode blank = None ∨ trim (addDraftName blank) = [])
    by (right; reflexivity).
  assert (H2 : trim (addDraftName form) ≠ []) by by_evaluation.
  assert (H3 : addMode form = Some sibling) by reflexivity.
  split; [done|]. split.
  - exact (proj1 (handleCreate_requests net noTree node blank (idle ABC)) H1).
  - exact (proj2 (handleCreate_requests net noTree node form (idle ABC)) H2 sibling H3).
Defined.

(** ** Dragging *)

Section DragFacts.
Variables (net : Network) (asSectionNodes : json -> list SectionNode).

(** X14.  The drag markers.  A drop outside any row clears [activeId] and
    [overId] and does nothing else.  A drop that passes the guards of
    [moveSectionByAnchor] ends with both markers cleared and [moving]
    off, whatever the server answered.  A drop that is refused - onto
    the row itself, an id the index does not know, or a row with another
    parent - leaves both markers as they were and sends nothing. *)
Theorem onDragEnd_markers event w :
  let final := snd (onDragEnd net asSectionNodes event w) in
  let meta := getNodeMeta (tree (ui w)) in
  (present (over event) = false →
   onDragEnd net asSectionNodes event w =
   (Normal (), mkWorld (withOverId (withActiveId (ui w) None) None) (history w))) ∧
  (∀ target dragged targetMeta,
     over event = Some target → target ≠ [] → active event ≠ target →
     meta !! active event = Some dragged → meta !! target = Some targetMeta →
     parentId dragged = parentId targetMeta →
     activeId (ui final) = None ∧ overId (ui final) = None ∧
     moving (ui final) = false) ∧
  (∀ target,
     over event = Some target → target ≠ [] →
     (active event = target ∨ meta !! active event = None ∨ meta !! target = None ∨
      ∃ dragged targetMeta,
        meta !! active event = Some dragged ∧ meta !! target = Some targetMeta ∧
        parentId dragged ≠ parentId targetMeta) →
     activeId (ui final) = activeId (ui w) ∧ overId (ui final) = overId (ui w) ∧
     tree (ui final) = tree (ui w) ∧ history final = history w).
Proof.
  intros final meta. subst final. unfold onDragEnd. cbv zeta. split; [|split].
  - by intros ->.
  - intros target dragged targetMeta Hover Hne Hst Hs Ht Hp.
    rewrite Hover. destruct target as [|c target]; [done|]. cbn [present negb].
    change (default [] (Some (c :: target))) with (c :: target).
    rewrite (moveSectionByAnchor_proceeds net asSectionNodes w _ _ dragged targetMeta
               Hst Hs Ht Hp).
    match goal with |- context [fst ?r] => destruct (fst r) as [[]|?] end;
      cbn [snd ui]; done.
  - intros target Hover Hne Hcase.
    rewrite Hover. destruct target as [|c target]; [done|]. cbn [present negb].
    change (default [] (Some (c :: target))) with (c :: target).
    unfold moveSectionByAnchor. fold meta.
    destruct Hcase as [->|[Hs|[Ht|(d & g & Hs & Ht & Hp)]]].
    + by rewrite decide_True.
    + case_decide; [done|]. by rewrite Hs.
    + case_decide; [done|]. rewrite Ht. by destruct (meta !! active event).
    + case_decide; [done|]. by rewrite Hs, Ht, decide_True.
Qed.
End DragFacts.

Lemma onDragEnd_markers_witness :
  let net := always (Throw (ErrorObject (js "Failed to fetch"))) in
  let dragging nodes :=
    mkWorld (mkApp nodes false false [] [] false None None None
               (Some (js "A")) (Some (js "C"))) [] in
  let outside := mkDrag (js "A") None in
  let onto target := mkDrag (js "A") (Some (js target)) in
  (present (over outside) = false ∧
   (over (onto "C") = Some (js "C") ∧ js "C" ≠ [] ∧ active (onto "C") ≠ js "C" ∧
    getNodeMeta ABC !! js "A" = Some (mkMeta (Some (js "P")) 1) ∧
    getNodeMeta ABC !! js "C" = Some (mkMeta (Some (js "P")) 3) ∧
    Some (js "P") = Some (js "P")) ∧
   (over (onto "A") = Some (js "A") ∧ js "A" ≠ [] ∧ active (onto "A") = js "A")) ∧
  onDragEnd net noTree outside (dragging ABC) =
    (Normal (),
     mkWorld (withOverId (withActiveId (ui (dragging ABC)) None) None) []) ∧
  (activeId (ui (snd (onDragEnd net noTree (onto "C") (dragging ABC)))) = None ∧
   overId (ui (snd (onDragEnd net noTree (onto "C") (dragging ABC)))) = None ∧
   moving (ui (snd (onDragEnd net noTree (onto "C") (dragging ABC)))) = false) ∧
  (activeId (ui (snd (onDragEnd net noTree (onto "A") (dragging ABC)))) = Some (js "A") ∧
   overId (ui (snd (onDragEnd net noTree (onto "A") (dragging ABC)))) = Some (js "C") ∧
   tree (ui (snd (onDragEnd net noTree (onto "A") (dragging ABC)))) = ABC ∧
   history (snd (onDragEnd net noTree (onto "A") (dragging ABC))) = []).
Proof.
  intros net dragging outside onto.
  assert (H1 : present (over outside) = false) by reflexivity.
  assert (H2 : js "C" ≠ []) by by_evaluation.
  assert (H3 : active (onto "C") ≠ js "C") by by_evaluation.
  assert (H4 : getNodeMeta ABC !! js "A" = Some (mkMeta (Some (js "P")) 1))
    by (vm_compute; reflexivity).
  assert (H5 : getNodeMeta ABC !! js "C" = Some (mkMeta (Some (js "P")) 3))
    by (vm_compute; reflexivity).
  assert (H6 : js "A" ≠ []) by by_evaluation.
  split; [done|]. split; [|split].
  - exact (proj1 (onDragEnd_markers net noTree outside (dragging ABC)) H1).
  - exact (proj1 (proj2 (onDragEnd_markers net noTree (onto "C") (dragging ABC)))
             (js "C") _ _ eq_refl H2 H3 H4 H5 eq_refl).
  - exact (proj2 (proj2 (onDragEnd_markers net noTree (onto "A") (dragging ABC)))
             (js "A") eq_refl H6 (or_introl eq_refl)).
Defined.

(** ** Collapsing rows *)

(** X15.  [toggleCollapse] flips whether the given id is collapsed, leaves
    every other id as it was, and applied twice gives the set back. *)
Theorem toggleCollapse_flips (sectionId : jsstring) (prev : gset jsstring) :
  (sectionId ∈ toggleCollapse sectionId prev ↔ sectionId ∉ prev) ∧
  (∀ other, other ≠ sectionId →
            (other ∈ toggleCollapse sectionId prev ↔ other ∈ prev)) ∧
  toggleCollapse sectionId (toggleCollapse sectionId prev) = prev.
Proof.
  unfold toggleCollapse. split; [|split].
  - case_decide; set_solver.
  - intros other Hne. case_decide; set_solver.
  - destruct (decide (sectionId ∈ prev)) as [Hin|Hout].
    + rewrite decide_False by set_solver.
      apply set_eq. intros x. destruct (decide (x = sectionId)); set_solver.
    + rewrite decide_True by set_solver. set_solver.
Qed.

Lemma toggleCollapse_flips_witness :
  js "B" ≠ js "A" ∧
  (js "B" ∈ toggleCollapse (js "A") {[js "B"]} ↔ js "B" ∈ ({[js "B"]} : gset jsstring)).
Proof.
  assert (H : js "B" ≠ js "A") by by_evaluation.
  split; [done|].
  exact (proj1 (proj2 (toggleCollapse_flips (js "A") {[js "B"]})) (js "B") H).
Defined.

(** ** The rows on screen *)

Lemma sublist_concat {A} (ls ls' : list (list A)) :
  Forall2 sublist ls ls' → concat ls `sublist_of` concat ls'.
Proof.
  induction 1 as [|l l' ls ls' Hl _ IH]; simpl; [done|]. by apply sublist_app.
Qed.

Lemma SectionTree_cons collapsedIds depth n nodes :
  SectionTree collapsedIds depth (n :: nodes) =
  rowsBelow collapsedIds depth n ++ SectionTree collapsedIds depth nodes.
Proof. done. Qed.

Lemma rowsBelow_unfold collapsedIds depth n :
  rowsBelow collapsedIds depth n =
  mkRowProps n depth (bool_decide (id n ∈ collapsedIds))
  :: (if bool_decide (children n ≠ []) && negb (bool_decide (id n ∈ collapsedIds))
      then SectionTree collapsedIds (S depth) (children n)
      else []).
Proof. by destruct n. Qed.

Lemma rows_depth collapsedIds nodes : ∀ depth,
  Forall (fun r => (depth ≤ rowDepth r)%nat) (SectionTree collapsedIds depth nodes).
Proof.
  assert (Hlist : ∀ l,
    Forall (fun n => ∀ depth, Forall (fun r => (depth ≤ rowDepth r)%nat)
                                (rowsBelow collapsedIds depth n)) l →
    ∀ depth, Forall (fun r => (depth ≤ rowDepth r)%nat)
               (SectionTree collapsedIds depth l)).
  { induction 1 as [|n l Hn _ IH]; intros depth; [constructor|].
    rewrite SectionTree_cons. apply Forall_app. auto. }
  apply Hlist, Forall_forall. intros n _. clear nodes.
  induction n as [i p k nm lf o ch IH] using SectionNode_nested_ind.
  intros depth. rewrite rowsBelow_unfold. constructor; [simpl; lia|].
  cbn [children id]. destruct (_ && _); [|constructor].
  eapply Forall_impl; [apply (Hlist _ IH (S depth))|]. simpl. intros; lia.
Qed.

(** X16.  With no row collapsed [SectionTree] renders every node of the
    tree, parents before their children in the order of the lists, none
    of them marked collapsed. *)
Theorem SectionTree_all_expanded depth nodes :
  rowNode <$> SectionTree ∅ depth nodes = treeNodes nodes ∧
  Forall (fun r => isCollapsed r = false) (SectionTree ∅ depth nodes).
Proof.
  assert (Hlist : ∀ l,
    Forall (fun n => ∀ d, rowNode <$> rowsBelow ∅ d n = subnodes n ∧
                          Forall (fun r => isCollapsed r = false) (rowsBelow ∅ d n)) l →
    ∀ d, rowNode <$> SectionTree ∅ d l = treeNodes l ∧
         Forall (fun r => isCollapsed r = false) (SectionTree ∅ d l)).
  { induction 1 as [|n l Hn _ IH]; intros d; [by split|].
    rewrite SectionTree_cons, treeNodes_cons, fmap_app.
    destruct (Hn d) as [-> ?], (IH d) as [-> ?]. split; [done|].
    by apply Forall_app. }
  apply Hlist, Forall_forall. intros n _. clear depth nodes.
  induction n as [i p k nm lf o ch IH] using SectionNode_nested_ind.
  intros d. rewrite rowsBelow_unfold, subnodes_unfold. cbn [children id].
  rewrite bool_decide_eq_false_2 by set_solver. cbn [negb]. rewrite andb_true_r.
  destruct ch as [|c ch]; [by repeat constructor|].
  rewrite bool_decide_eq_true_2 by done.
  destruct (Hlist _ IH (S d)) as [Hn Hc]. split.
  - by rewrite fmap_cons, Hn.
  - by constructor.
Qed.

(** X17.  Collapsing only hides rows.  The rows rendered with more ids
    collapsed are a subsequence of the rows rendered with fewer; and
    whatever is collapsed, the rows at the starting depth are exactly
    the nodes of the list handed to [SectionTree], in order. *)
Theorem SectionTree_collapse_hides (fewer more : gset jsstring) depth nodes :
  (fewer ⊆ more →
   (fun r => (rowNode r, rowDepth r)) <$> SectionTree more depth nodes
   `sublist_of`
   (fun r => (rowNode r, rowDepth r)) <$> SectionTree fewer depth nodes) ∧
  rowNode <$> filter (fun r => rowDepth r = depth) (SectionTree more depth nodes)
  = nodes.
Proof.
  split.
  - intros Hsub. set (view := fun r => (rowNode r, rowDepth r)).
    assert (Hlist : ∀ l,
      Forall (fun n => ∀ d, view <$> rowsBelow more d n
                            `sublist_of` view <$> rowsBelow fewer d n) l →
      ∀ d, view <$> SectionTree more d l `sublist_of` view <$> SectionTree fewer d l).
    { induction 1 as [|n l Hn _ IH]; intros d; [done|].
      rewrite !SectionTree_cons, !fmap_app. by apply sublist_app. }
    apply Hlist, Forall_forall. intros n _. clear depth nodes.
    induction n as [i p k nm lf o ch IH] using SectionNode_nested_ind.
    intros d. rewrite !rowsBelow_unfold, !fmap_cons. cbn [children id].
    apply sublist_skip.
    destruct (bool_decide (i ∈ more)) eqn:Hm.
    + rewrite andb_false_r. apply sublist_nil_l.
    + apply bool_decide_eq_false in Hm.
      rewrite (bool_decide_eq_false_2 (i ∈ fewer)) by set_solver.
      destruct (bool_decide (ch ≠ [])); [|done]. apply (Hlist _ IH).
  - revert depth. induction nodes as [|n nodes IH]; intros depth; [done|].
    rewrite SectionTree_cons, filter_app, fmap_app, IH. simpl. f_equal.
    rewrite rowsBelow_unfold, filter_cons. cbn [rowDepth].
    rewrite decide_True by done.
    assert (filter (fun r => rowDepth r = depth)
              (if bool_decide (children n ≠ []) && negb (bool_decide (id n ∈ more))
               then SectionTree more (S depth) (children n) else []) = []) as ->; [|done].
    destruct (_ && _); [|done].
    pose proof (rows_depth more (children n) (S depth)) as Hd.
    induction Hd as [|r rs Hr _ IHd]; [done|].
    rewrite filter_cons, decide_False by lia. done.
Qed.

Lemma SectionTree_collapse_hides_witness :
  (∅ : gset jsstring) ⊆ {[js "P"]} ∧
  (fun r => (rowNode r, rowDepth r)) <$> SectionTree {[js "P"]} 0 underP
  `sublist_of`
  (fun r => (rowNode r, rowDepth r)) <$> SectionTree ∅ 0 underP.
Proof.
  assert (H : (∅ : gset jsstring) ⊆ {[js "P"]}) by set_solver.
  split; [done|].
  exact (proj1 (SectionTree_collapse_hides ∅ {[js "P"]} 0 underP) H).
Defined.

(** ** Importing a file *)

Section ImportFacts.
Variables (net : Network) (asSectionNodes : json -> list SectionNode).

(** [onImportChange] with a file chosen, step by step. *)
Lemma onImportChange_run file rest value w :
  let busy := withInfo (withError (withImporting (ui w) true) []) [] in
  let sent := history w ++ [Http (POST_sections_import file)] in
  onImportChange net asSectionNodes (file :: rest) (value, w) =
  match fst (importSectionsRequest net file w) with
  | Throw e =>
      (Normal (),
       ([], mkWorld (withImporting (withError busy (messageOr e (js "Import failed")))
                       false) sent))
  | Normal result =>
      let loaded :=
        match fst (fetchSections net (mkWorld busy sent)) with
        | Normal data => withTree busy (asSectionNodes data)
        | Throw e => withError busy (messageOr e (js "Unknown error"))
        end in
      (Normal (),
       ([], mkWorld
              (withImporting
                 match summaryText result with
                 | Normal text => withInfo loaded text
                 | Throw e => withError loaded (messageOr e (js "Import failed"))
                 end false)
              (sent ++ [Http GET_sections])))
  end.
Proof.
  intros busy sent. unfold onImportChange. cbn [head].
  unfold inWorld, setImporting, setInfo, setInputValue. run_handler. fold busy.
  rewrite (honours_run net _ _ _ (mkWorld busy (history w))
             (importSectionsRequest_honours net file)).
  rewrite (importSectionsRequest_reads_history net file busy (ui w) (history w)),
    world_eta.
  cbn [ui history]. fold sent.
  destruct (fst (importSectionsRequest net file w)) as [result|e];
    cbn [fst snd ui history]; [|done].
  rewrite loadSections_silent. cbn [fst snd ui history].
  unfold settle.
  by destruct (summaryText result).
Qed.

(** The info line, from the four fields as text. *)
Lemma summaryText_fields result i s r l insertedText sourceText rootsText leavesText :
  propertyOf inserted result = Normal i → substitution i = Normal insertedText →
  propertyOf source result = Normal s → substitution s = Normal sourceText →
  propertyOf roots result = Normal r → substitution r = Normal rootsText →
  propertyOf leaves result = Normal l → substitution l = Normal leavesText →
  summaryText result =
  Normal (js "Imported " ++ insertedText ++ js " sections from " ++ sourceText
          ++ js " (" ++ rootsText ++ js " roots, " ++ leavesText ++ js " leaves).").
Proof.
  unfold summaryText. intros Hi Hit Hs Hst Hr Hrt Hl Hlt.
  by rewrite Hi, Hit, Hs, Hst, Hr, Hrt, Hl, Hlt.
Qed.

(** X18.  [onImportChange].  Without a file nothing happens.  With one it
    never throws, ends with [importing] off and the file input emptied,
    and sends the upload first.  If the upload throws, nothing else is
    sent, the tree stays, no info is shown and the thrown message (or
    ["Import failed"]) is the error.  If the server answers the upload
    with an ok status and a JSON body, the reload follows; then, when
    each of the body's [inserted], [source], [roots] and [leaves] can be
    read and converted to a string, the info line is assembled from
    these strings, and when a read or a conversion throws (the body is
    [null], or a field is an object that cannot be converted) no info
    is shown and the thrown message is the error. *)
Theorem onImportChange_outcome files value w :
  let final := snd (onImportChange net asSectionNodes files (value, w)) in
  fst (onImportChange net asSectionNodes files (value, w)) = Normal () ∧
  match files with
  | [] => final = (value, w)
  | file :: _ =>
      let upload := Http (POST_sections_import file) in
      fst final = [] ∧ importing (ui (snd final)) = false ∧
      (∀ e,
         fst (importSectionsRequest net file w) = Throw e →
         history (snd final) = history w ++ [upload] ∧
         tree (ui (snd final)) = tree (ui w) ∧
         info (ui (snd final)) = [] ∧
         error (ui (snd final)) = messageOr e (js "Import failed")) ∧
      (∀ res body,
         net (history w ++ [upload]) = Normal res →
         res_ok res = true →
         res_json res = Normal body →
         history (snd final) = history w ++ [upload; Http GET_sections] ∧
         (∀ i s r l insertedText sourceText rootsText leavesText,
            propertyOf inserted body = Normal i →
            substitution i = Normal insertedText →
            propertyOf source body = Normal s →
            substitution s = Normal sourceText →
            propertyOf roots body = Normal r →
            substitution r = Normal rootsText →
            propertyOf leaves body = Normal l →
            substitution l = Normal leavesText →
            info (ui (snd final)) =
              js "Imported " ++ insertedText ++ js " sections from " ++ sourceText
              ++ js " (" ++ rootsText ++ js " roots, " ++ leavesText
              ++ js " leaves).") ∧
         (∀ e,
            summaryText body = Throw e →
            info (ui (snd final)) = [] ∧
            error (ui (snd final)) = messageOr e (js "Import failed")))
  end.
Proof.
  intros final. subst final. destruct files as [|file rest]; [done|].
  rewrite onImportChange_run. cbv zeta.
  split; [by destruct (fst (importSectionsRequest net file w))|].
  split; [by destruct (fst (importSectionsRequest net file w))|].
  split; [by destruct (fst (importSectionsRequest net file w))|].
  split.
  - by intros e ->.
  - intros res body Hnet Hok Hjson.
    destruct (importSectionsRequest_honours net file w) as (_ & _ & Hanswer).
    destruct (Hanswer res Hnet) as (_ & Hbody & _).
    rewrite (Hbody body Hjson Hok). cbn [fst snd ui history].
    split; [by rewrite <- app_assoc|]. split.
    + intros i s r l insertedText sourceText rootsText leavesText
        Hi Hit Hs Hst Hr Hrt Hl Hlt.
      rewrite (summaryText_fields body _ _ _ _ _ _ _ _ Hi Hit Hs Hst Hr Hrt Hl Hlt).
      by destruct (fst (fetchSections net _)).
    + intros e ->. by destruct (fst (fetchSections net _)).
Qed.
End ImportFacts.

Lemma onImportChange_outcome_witness :
  let summary count :=
    JObject [(js "ok", JBool true); (js "inserted", count);
             (js "roots", JNumber (js "1")); (js "leaves", JNumber (js "1"));
             (js "source", JString (js "toc.json"))] in
  let answer count := mkResponse true (Normal (summary count)) in
  let upload := Http (POST_sections_import (js "[]")) in
  let final count :=
    snd (onImportChange (always (Normal (answer count))) noTree [js "[]"]
           (js "toc.json", idle [])) in
  let opaque := JObject [(js "toString", JBool true)] in
  ((∀ count, always (Normal (answer count)) ([] ++ [upload]) = Normal (answer count)) ∧
   (∀ count, res_ok (answer count) = true) ∧
   (∀ count, res_json (answer count) = Normal (summary count)) ∧
   (∀ count, propertyOf inserted (summary count) = Normal (Some count)) ∧
   (∀ count, propertyOf source (summary count)
             = Normal (Some (JString (js "toc.json")))) ∧
   (∀ count, propertyOf roots (summary count) = Normal (Some (JNumber (js "1")))) ∧
   (∀ count, propertyOf leaves (summary count) = Normal (Some (JNumber (js "1")))) ∧
   substitution (Some (JNumber (js "1e+21"))) = Normal (js "1e+21") ∧
   substitution (Some (JString (js "toc.json"))) = Normal (js "toc.json") ∧
   substitution (Some (JNumber (js "1"))) = Normal (js "1") ∧
   summaryText (summary opaque) = Throw (ErrorObject notPrimitiveMessage)) ∧
  info (ui (snd (final (JNumber (js "1e+21"))))) =
    js "Imported 1e+21 sections from toc.json (1 roots, 1 leaves)." ∧
  (info (ui (snd (final opaque))) = [] ∧
   error (ui (snd (final opaque))) = notPrimitiveMessage).
Proof.
  intros summary answer upload final opaque.
  split; [done|]. split.
  - destruct (onImportChange_outcome (always (Normal (answer (JNumber (js "1e+21")))))
                noTree [js "[]"] (js "toc.json") (idle []))
      as (_ & _ & _ & _ & Hanswered).
    destruct (Hanswered (answer (JNumber (js "1e+21"))) (summary (JNumber (js "1e+21")))
                eq_refl eq_refl eq_refl) as (_ & Hinfo & _).
    exact (Hinfo _ _ _ _ _ _ _ _
             eq_refl eq_refl eq_refl eq_refl eq_refl eq_refl eq_refl eq_refl).
  - destruct (onImportChange_outcome (always (Normal (answer opaque)))
                noTree [js "[]"] (js "toc.json") (idle []))
      as (_ & _ & _ & _ & Hanswered).
    destruct (Hanswered (answer opaque) (summary opaque) eq_refl eq_refl eq_refl)
      as (_ & _ & Hthrown).
    exact (Hthrown (ErrorObject notPrimitiveMessage) eq_refl).
Defined.

(** ** Structured [detail] *)

Lemma ToString_objects items :
  Forall (fun v => ∃ props, v = JObject props) items →
  ToString (JArray items) = objectsText items.
Proof.
  intros H. cbn [ToString]. unfold objectsText.
  induction H as [|v items [props ->] Hitems IH]; [done|].
  rewrite fmap_cons. cbn [existsb ownToString ToString length replicate].
  destruct items as [|v' items].
  { cbn [fmap list_fmap joinParts existsb orb].
    by destruct (hasOwn "toString" props). }
  cbn [joinParts]. cbn [joinParts] in IH. rewrite IH.
  destruct (hasOwn "toString" props); [done|]. cbn [orb].
  by destruct (existsb ownToString (v' :: items)).
Qed.

Lemma honours_structured {A} net (call : M World A) req fallback result :
  honoursDetail net call req fallback result →
  ∀ w res data items,
    net (history w ++ [Http req]) = Normal res →
    res_ok res = false → res_json res = Normal data →
    detailOf data = Normal (Some (JArray items)) →
    Forall (fun v => ∃ props, v = JObject props) items →
    fst (call w) =
    Throw match objectsText items with
          | Normal message => ErrorObject message
          | Throw e => e
          end.
Proof.
  intros H w res data items Hnet Hok Hjson Hdetail Hitems.
  destruct (H w) as (_ & _ & Hres).
  destruct (Hres res Hnet) as (_ & _ & Hsaid & Hthrows & _).
  apply ToString_objects in Hitems.
  destruct (objectsText items) as [message|e].
  - exact (Hsaid data (JArray items) message Hjson Hok Hdetail eq_refl Hitems).
  - exact (Hthrows data (JArray items) e Hjson Hok Hdetail eq_refl Hitems).
Qed.

(** X19.  A failure whose [detail] is a list of objects (one per rejected
    field, say) does not reach the caller as text.  When no entry has a
    property [toString] of its own, the [Error] that the move, rename
    and create helpers throw has the message ["[object Object]"] once
    per entry, joined by commas - and the empty message for an empty
    list.  When an entry has one, the conversion fails and the helpers
    throw its [TypeError] instead. *)
Theorem structured_detail_unreadable net w res data items :
  res_ok res = false → res_json res = Normal data →
  detailOf data = Normal (Some (JArray items)) →
  Forall (fun v => ∃ props, v = JObject props) items →
  let thrown :=
    if existsb ownToString items
    then ErrorObject notPrimitiveMessage
    else ErrorObject
           (joinWith (js ",") (replicate (length items) (js "[object Object]"))) in
  (∀ sectionId targetSectionId position,
     net (history w ++ [Http (PUT_sections_move sectionId targetSectionId position)])
       = Normal res →
     fst (moveSectionRequest net sectionId targetSectionId position w)
       = Throw thrown) ∧
  (∀ sectionId name,
     net (history w ++ [Http (PATCH_section sectionId name)]) = Normal res →
     fst (renameSectionRequest net sectionId name w) = Throw thrown) ∧
  (∀ name parentId anchorSectionId anchorPosition,
     net (history w ++
          [Http (POST_sections name parentId anchorSectionId anchorPosition)])
       = Normal res →
     fst (createSectionRequest net name parentId anchorSectionId anchorPosition w)
       = Throw thrown).
Proof.
  intros Hok Hjson Hdetail Hitems thrown.
  assert (Hthrown : thrown = match objectsText items with
                             | Normal message => ErrorObject message
                             | Throw e => e
                             end).
  { subst thrown. unfold objectsText. by destruct (existsb ownToString items). }
  rewrite Hthrown. split; [|split]; intros.
  - by eapply honours_structured; [apply moveSectionRequest_honours|..].
  - by eapply honours_structured; [apply renameSectionRequest_honours|..].
  - by eapply honours_structured; [apply createSectionRequest_honours|..].
Qed.

Lemma structured_detail_unreadable_witness :
  let items :=
    [JObject [(js "msg", JString (js "field required"))];
     JObject [(js "msg", JString (js "value is not a valid string"))]] in
  let hiding :=
    [JObject [(js "msg", JString (js "field required"))];
     JObject [(js "toString", JString (js "value is not a valid string"))]] in
  let data entries := JObject [(js "detail", JArray entries)] in
  let res entries := mkResponse false (Normal (data entries)) in
  let patch := Http (PATCH_section (js "A") (js "x")) in
  ((∀ entries, res_ok (res entries) = false) ∧
   (∀ entries, res_json (res entries) = Normal (data entries)) ∧
   (∀ entries, detailOf (data entries) = Normal (Some (JArray entries))) ∧
   Forall (fun v => ∃ props, v = JObject props) items ∧
   Forall (fun v => ∃ props, v = JObject props) hiding ∧
   (∀ entries, always (Normal (res entries)) ([] ++ [patch]) = Normal (res entries))) ∧
  fst (renameSectionRequest (always (Normal (res items))) (js "A") (js "x") (idle []))
    = Throw (ErrorObject (js "[object Object],[object Object]")) ∧
  fst (renameSectionRequest (always (Normal (res hiding))) (js "A") (js "x") (idle []))
    = Throw (ErrorObject (js "Cannot convert object to primitive value")).
Proof.
  intros items hiding data res patch.
  assert (H : Forall (fun v => ∃ props, v = JObject props) items)
    by (repeat constructor; eauto).
  assert (H' : Forall (fun v => ∃ props, v = JObject props) hiding)
    by (repeat constructor; eauto).
  split; [done|]. split.
  - exact (proj1 (proj2 (structured_detail_unreadable (always (Normal (res items)))
                           (idle []) (res items) (data items) items
                           eq_refl eq_refl eq_refl H))
             (js "A") (js "x") eq_refl).
  - exact (proj1 (proj2 (structured_detail_unreadable (always (Normal (res hiding)))
                           (idle []) (res hiding) (data hiding) hiding
                           eq_refl eq_refl eq_refl H'))
             (js "A") (js "x") eq_refl).
Defined.

(** ** Exceptions stay inside *)

(** X20.  No exception escapes the handlers wired to the page: whatever
    the network does and whatever state they start from,
    [moveSectionByAnchor], [onDragEnd], [onDeleteSection] with the
    "Delete All" button of its dialog, [handleSave] and [handleCreate]
    complete normally. *)
Theorem handlers_never_throw net asSectionNodes :
  (∀ s t w, fst (moveSectionByAnchor net asSectionNodes s t w) = Normal ()) ∧
  (∀ event w, fst (onDragEnd net asSectionNodes event w) = Normal ()) ∧
  (∀ node w, ∃ dialog,
     fst (onDeleteSection net asSectionNodes node w) = Normal dialog ∧
     ∀ w1, fst (clickOk dialog w1) = Normal ()) ∧
  (∀ node row w,
     fst (handleSave node (renameSection net asSectionNodes) (row, w)) = Normal ()) ∧
  (∀ node form w,
     fst (handleCreate node (onCreateSection net asSectionNodes) (form, w))
       = Normal ()).
Proof.
  assert (Hmove : ∀ s t w,
    fst (moveSectionByAnchor net asSectionNodes s t w) = Normal ()).
  { intros s t w. unfold moveSectionByAnchor.
    destruct (decide (s = t)) as [|Hst]; [done|].
    destruct (getNodeMeta (tree (ui w)) !! s) as [d|] eqn:Hs; [|done].
    destruct (getNodeMeta (tree (ui w)) !! t) as [g|] eqn:Ht; [|done].
    destruct (decide (parentId d ≠ parentId g)) as [|Hp]; [done|].
    apply dec_stable in Hp.
    pose proof (moveSectionByAnchor_proceeds net asSectionNodes w s t d g
                  Hst Hs Ht Hp) as Hrun.
    unfold moveSectionByAnchor in Hrun.
    rewrite decide_False, Hs, Ht, decide_False in Hrun by (done || by intros []).
    rewrite Hrun.
    match goal with |- context [fst (moveSectionRequest ?a ?b ?c ?d ?e)] =>
      by destruct (fst (moveSectionRequest a b c d e)) as [[]|?]
    end. }
  split; [done|]. split; [|split; [|split]].
  - intros event w. unfold onDragEnd. cbv zeta.
    destruct (present (over event)); [apply Hmove|done].
  - intros node w. unfold onDeleteSection.
    destruct (children node) as [|c ch].
    + exists None. split; [|done]. run_handler.
      match goal with |- context [deleteSectionRequest net _ _ ?w1] =>
        rewrite (honours_run net _ _ _ w1
                   (deleteSectionRequest_honours net (id node) lift_children));
        destruct (fst (deleteSectionRequest net (id node) lift_children w1))
          as [[]|e]
      end; cbn [ui history]; [|done].
      by rewrite loadSections_silent.
    + eexists. split; [reflexivity|]. intros w1.
      destruct (delete_then_reload_history net asSectionNodes w1 (id node) cascade)
        as (a & later & Hrun & _).
      cbn [clickOk onOk]. by rewrite Hrun.
  - intros node row w. unfold handleSave. cbn [fst snd].
    destruct (_ || _); [done|].
    destruct (renameSection_history net asSectionNodes w (id node)
                (trim (draftName row))) as (a & later & Hrun & _).
    unfold inApp, setIsEditing, mbind, M_bind. cbn [fst snd]. by rewrite Hrun.
  - intros node form w. unfold handleCreate. cbn [fst snd].
    destruct (addMode form) as [mode|]; [|done].
    case_bool_decide as Hd; [done|].
    assert (Htrim : trim (trim (addDraftName form)) ≠ [])
      by by rewrite trim_idempotent.
    match goal with |- context [onCreateSection _ _ ?n ?p ?a ?m] =>
      destruct (onCreateSection_run net asSectionNodes n p a m w Htrim)
        as (a' & later & Hrun & _)
    end.
    unfold inWorld, setAddDraftName, setAddMode, mbind, M_bind.
    cbn [fst snd]. by rewrite Hrun.
Qed.
